(** * A finite-state-machine engine: rulesets, guards and machines

    Shallow embedding of [fsm.go] (package [fsm]) and the properties of its
    rule evaluation.

    - Go's [map[Transition][]Guard] is a [gmap] from interface values to
      guard lists; an interface value carries its dynamic type, so a key of
      type [T] and a key of another implementation never compare equal.
    - A [Guard] is a Go function: on a pair of states it either returns an
      [error] (possibly nil) or never returns.
    - [Permitted] starts one goroutine per guard and reads their results
      from an unbuffered channel.  The order in which results arrive is
      chosen by the scheduler; it is an explicit argument of the model, and
      the goroutines themselves are given a step relation in
      [Module Interleaving].
    - A call either returns, never returns, or panics ([Outcome]).  The
      one panic of the package is the dereference of a nil [Rules]; a guard
      that itself panics is outside the model.
    - A ruleset is an allocated map, as [CreateRuleset] makes it, and its
      keys are of comparable types. *)

From Stdlib Require Import Ascii.
From stdpp Require Import base decidable countable option list strings gmap fin_maps.

(** ** fmt.Sprintf, restricted to the verb the package uses *)

Module Fmt.

(** [%s] consumes the next argument; a [%s] with no argument left prints
    Go's [%!s(MISSING)].  The three formats of the package contain no other
    verb, so every other character is copied. *)
Fixpoint Sprintf (format : string) (args : list string) : string :=
  match format with
  | EmptyString => EmptyString
  | String c rest =>
      if Ascii.eqb c "%"%char then
        match rest with
        | String v rest' =>
            if Ascii.eqb v "s"%char then
              match args with
              | a :: args' => a +:+ Sprintf rest' args'
              | [] => "%!s(MISSING)"%string +:+ Sprintf rest' []
              end
            else String c (Sprintf rest args)
        | EmptyString => "%!(NOVERB)"%string
        end
      else String c (Sprintf rest args)
  end.

(** [s] has [sub] as a contiguous piece. *)
Definition Contains (s sub : string) : Prop :=
  ∃ pre post, s = pre +:+ sub +:+ post.

End Fmt.

(** ** Errors *)

(** The value built by [errors.New] and [fmt.Errorf]: a message. *)
Record error := errorString { Error : string }.

(** A Go [error] is an interface value: [None] is nil. *)
Definition Errorf (format : string) (args : list string) : error :=
  errorString (Fmt.Sprintf format args).

Definition errTransitionFormat : string := "Cannot transition from %s to %s".
Definition errNoRulesFormat : string := "No rules found for %s to %s".
Definition errGuardFailedFormat : string := "Guard failed from %s to %s: %s".

Definition ErrInvalidTransition : error := errorString "invalid transition".

(** ** States and transitions *)

(** Modelled from the spec: the declaration of [State], of its constructor
    [NewState] and of its accessor [ID] is not in [fsm.go].  The spec gives
    a State as the wrapper of one string-like identity value, built only by
    [NewState], read only by [ID], two States being equal iff their
    identities are; [fsm.go] uses [ID()] where a [string] is required. *)
Record State := NewState { ID : string }.

#[global] Instance State_eq_dec : EqDecision State.
Proof. solve_decision. Defined.

(** A value of the interface [Transition], with its dynamic type:
    [T o e] is the struct [T{o, e}] of the package; [Custom ty v o e] is a
    value of any other comparable implementation: [ty] is its dynamic
    type, [v] the value itself as Go's [==] compares it (its fields, or
    its address for a pointer type), and [o] and [e] are what its methods
    [Origin] and [Exit] return.  Two keys are equal, as in a Go map, when
    their dynamic types and their values are. *)
Inductive Transition :=
  | T (O E : string)
  | Custom (dyn_type : string) (value : string) (origin exit : State).

Definition Origin (t : Transition) : State :=
  match t with
  | T o _ => NewState o
  | Custom _ _ o _ => o
  end.

Definition Exit (t : Transition) : State :=
  match t with
  | T _ e => NewState e
  | Custom _ _ _ e => e
  end.

#[global] Instance Transition_eq_dec : EqDecision Transition.
Proof. solve_decision. Defined.

Definition Transition_encode (t : Transition)
  : string * string + string * (string * (string * string)) :=
  match t with
  | T o e => inl (o, e)
  | Custom ty v o e => inr (ty, (v, (ID o, ID e)))
  end.

Definition Transition_decode
    (x : string * string + string * (string * (string * string))) : Transition :=
  match x with
  | inl (o, e) => T o e
  | inr (ty, (v, (o, e))) => Custom ty v (NewState o) (NewState e)
  end.

#[global] Instance Transition_countable : Countable Transition.
Proof.
  apply (inj_countable' Transition_encode Transition_decode).
  intros [o e | ty v [o] [e]]; reflexivity.
Defined.

(** ** Guards and rulesets *)

(** What a call of a Go function of result type [error] does. *)
Inductive Completion :=
  | Done (err : option error)
  | Hang.

(** [type Guard func(start State, goal State) error] *)
Definition Guard : Type := State → State → Completion.

(** [type Ruleset map[Transition][]Guard], an allocated map. *)
Abbreviation Ruleset := (gmap Transition (list Guard)).

(** [r[t]] read as a value: the nil slice when [t] is absent. *)
Definition index (r : Ruleset) (t : Transition) : list Guard :=
  default [] (r !! t).

(** [AddRule]: one [r[t] = append(r[t], guard)] per guard, in order. *)
Definition AddRule (t : Transition) (guards : list Guard) (r : Ruleset) : Ruleset :=
  foldl (λ r guard, <[t := index r t ++ [guard]]> r) r guards.

(** The function literal of [AddTransition]; it closes over [t]. *)
Definition default_guard (t : Transition) : Guard :=
  λ start goal,
    if decide (ID start ≠ ID (Origin t))
    then Done (Some (Errorf errTransitionFormat [ID start; ID goal]))
    else Done None.

Definition AddTransition (t : Transition) (r : Ruleset) : Ruleset :=
  AddRule t [default_guard t] r.

Definition CreateRuleset (transitions : list Transition) : Ruleset :=
  foldl (λ r t, AddTransition t r) ∅ transitions.

(** ** Calls, outcomes and the permission check *)

(** How a call of a function of the package ends. *)
Inductive Outcome (A : Type) :=
  | Return (a : A)
  | Block
  | Panic (msg : string).
Arguments Return {A} a.
Arguments Block {A}.
Arguments Panic {A} msg.

#[global] Instance Outcome_bind : MBind Outcome := λ A B k x,
  match x with
  | Return a => k a
  | Block => Block
  | Panic msg => Panic msg
  end.

(** The two rejections of [Permitted]:
    [fmt.Errorf(errNoRulesFormat, start.ID(), goal.ID())] and
    [fmt.Errorf(errGuardFailedFormat, start.ID(), goal.ID(), err.Error())].
    Go tells them apart by their message only. *)
Definition NoRulesError (start goal : State) : error :=
  Errorf errNoRulesFormat [ID start; ID goal].

Definition GuardFailedError (start goal : State) (reason : string) : error :=
  Errorf errGuardFailedFormat [ID start; ID goal; reason].

Definition is_guard_failure (e : error) : Prop :=
  ∃ start goal reason, e = GuardFailedError start goal reason.

Definition is_no_rules (e : error) : Prop :=
  ∃ start goal, e = NoRulesError start goal.

(** One goroutine of [Permitted]:
    [go func(g Guard) { outcome <- g(start, goal) }(guard)]. *)
Record Call := go { call_guard : Guard; call_start : State; call_goal : State }.

Definition run (c : Call) : Completion :=
  call_guard c (call_start c) (call_goal c).

(** The first loop: one goroutine per guard, all on the same pair. *)
Definition spawn (guards : list Guard) (start goal : State) : list Call :=
  (λ g, go g start goal) <$> guards.

(** What the goroutines will offer on the channel: the result of every
    call that returns.  A call that hangs never sends. *)
Definition offers (calls : list Call) : list (option error) :=
  omap (λ c, match run c with Done err => Some err | Hang => None end) calls.

(** The second loop, [for range guards { select { case err := <-outcome ... } } }],
    with [n] iterations left and [ready] the values still offered.  The
    channel is unbuffered: each receive takes the value of one sender, the
    one the scheduler picks ([sched], read modulo the number of senders).
    With no sender the receive waits for ever. *)
Fixpoint collect (sched : list nat) (n : nat) (ready : list (option error))
    (start goal : State) : Outcome (option error) :=
  match n with
  | 0 => Return None
  | S n' =>
      match ready with
      | [] => Block
      | v0 :: _ =>
          let i := hd 0 sched `mod` length ready in
          match nth i ready v0 with
          | Some err => Return (Some (GuardFailedError start goal (Error err)))
          | None => collect (tl sched) n' (delete i ready) start goal
          end
      end
  end.

(** A run of [Permitted]: the goroutines it started and how it ended. *)
Record Run := { launched : list Call; outcome : Outcome (option error) }.

Definition Permitted_run (sched : list nat) (r : Ruleset) (start goal : State) : Run :=
  let attempt := T (ID start) (ID goal) in
  match r !! attempt with
  | Some guards =>
      let calls := spawn guards start goal in
      {| launched := calls;
         outcome := collect sched (length guards) (offers calls) start goal |}
  | None =>
      {| launched := [];
         outcome := Return (Some (NoRulesError start goal)) |}
  end.

Definition Permitted (sched : list nat) (r : Ruleset) (start goal : State)
  : Outcome (option error) :=
  outcome (Permitted_run sched r start goal).

(** ** The machine *)

(** [Rules *Ruleset] is read, never written, by the package: the pointer is
    modelled by the ruleset it points to, [None] for nil.  The field
    [State] is named [Current], [State] being the type. *)
Record Machine := { Rules : option Ruleset; Current : State }.

Definition nil_dereference : string :=
  "runtime error: invalid memory address or nil pointer dereference".

(** [*m.Rules] *)
Definition deref {A} (p : option A) : Outcome A :=
  match p with
  | Some a => Return a
  | None => Panic nil_dereference
  end.

(** [func (m *Machine) Transition(goal State) (err error)]: the result is
    the returned error with the machine as the call leaves it. *)
Definition Machine_Transition (sched : list nat) (goal : State) (m : Machine)
  : Outcome (option error * Machine) :=
  r ← deref (Rules m);
  err ← Permitted sched r (Current m) goal;
  match err with
  | None => Return (None, {| Rules := Rules m; Current := goal |})
  | Some _ => Return (err, m)
  end.

(** Modelled from the spec: the zero value of [State], whose declaration is
    not in [fsm.go]; the wrapper of the zero identity. *)
Definition zero_State : State := NewState "".

(** [var m Machine] *)
Definition zero_Machine : Machine := {| Rules := None; Current := zero_State |}.

(** An option, a function on a pointer to the machine under construction,
    is the change it makes to that machine. *)
Definition New (opts : list (Machine → Machine)) : Machine :=
  foldl (λ m opt, opt m) zero_Machine opts.

(** ** The goroutines of one permission check *)

Module Interleaving.

(** A goroutine started by [Permitted] evaluates its guard, then offers the
    result on the channel, and is over once the caller has taken it. *)
Inductive Goroutine :=
  | Running (c : Call)
  | Sending (v : option error)
  | Exited.

(** The caller, once the lookup has found [guards]: in the first loop with
    [rest] still to launch, in the second with [n] iterations left, or
    back from [Permitted]. *)
Inductive Caller :=
  | Launching (rest : list Guard)
  | Receiving (n : nat)
  | Returned (err : option error).

Record Config := { caller : Caller; pool : list Goroutine }.

Section Steps.
Variable guards : list Guard.
Variables start goal : State.

Definition initial : Config := {| caller := Launching guards; pool := [] |}.

(** One step of the caller or of one goroutine.  A receive on the
    unbuffered channel is a rendezvous with one sender; a goroutine whose
    guard hangs has no step; nothing stops or removes a goroutine. *)
Inductive step : Config → Config → Prop :=
  | step_go g rest p :
      step {| caller := Launching (g :: rest); pool := p |}
           {| caller := Launching rest;
              pool := p ++ [Running (go g start goal)] |}
  | step_launched p :
      step {| caller := Launching []; pool := p |}
           {| caller := Receiving (length guards); pool := p |}
  | step_eval k p i c v :
      p !! i = Some (Running c) →
      run c = Done v →
      step {| caller := k; pool := p |}
           {| caller := k; pool := <[i := Sending v]> p |}
  | step_recv_nil n p i :
      p !! i = Some (Sending None) →
      step {| caller := Receiving (S n); pool := p |}
           {| caller := Receiving n; pool := <[i := Exited]> p |}
  | step_recv_err n p i err :
      p !! i = Some (Sending (Some err)) →
      step {| caller := Receiving (S n); pool := p |}
           {| caller := Returned (Some (GuardFailedError start goal (Error err)));
              pool := <[i := Exited]> p |}
  | step_done p :
      step {| caller := Receiving 0; pool := p |}
           {| caller := Returned None; pool := p |}.

Definition reachable (c : Config) : Prop := rtc step initial c.
End Steps.

(** The value a goroutine offers now or will offer. *)
Definition pending (g : Goroutine) : option (option error) :=
  match g with
  | Running c => match run c with Done v => Some v | Hang => None end
  | Sending v => Some v
  | Exited => None
  end.

Definition is_exited (g : Goroutine) : bool :=
  match g with
  | Exited => true
  | _ => false
  end.

(** How many results the caller has received. *)
Definition received (p : list Goroutine) : nat :=
  length (filter (λ g, is_exited g = true) p).

Section Invariant.
Variable guards : list Guard.
Variables start goal : State.

(** The goroutine started for the guard [g]. *)
Definition tracks (g : Guard) (gr : Goroutine) : Prop :=
  match gr with
  | Running c => c = go g start goal
  | Sending v => g start goal = Done v
  | Exited => True
  end.

(** The pool holds, in order, the goroutines of the guards launched so
    far, and the caller has counted what it received. *)
Definition invariant (c : Config) : Prop :=
  ∃ gs, Forall2 tracks gs (pool c)
        ∧ match caller c with
          | Launching rest => guards = gs ++ rest ∧ received (pool c) = 0
          | Receiving n => gs = guards ∧ received (pool c) + n = length guards
          | Returned None => gs = guards ∧ received (pool c) = length guards
          | Returned (Some _) => gs = guards ∧ 1 ≤ received (pool c)
          end.

(** A configuration in which the call has ended with [o]: the caller is
    back with a value, or it waits in the second loop and nothing can move
    any more. *)
Definition ends (c : Config) (o : Outcome (option error)) : Prop :=
  match o with
  | Return v => caller c = Returned v
  | Block => (∃ n, caller c = Receiving (S n)) ∧ ∀ c', ¬ step guards start goal c c'
  | Panic _ => False
  end.

(** How the call of a configuration can still end, read as a run of the
    receive loop under some schedule. *)
Definition ends_under_some_schedule (c : Config) (o : Outcome (option error)) : Prop :=
  match caller c with
  | Launching rest =>
      ∃ sched, collect sched (length guards)
                 (omap pending (pool c ++ (Running <$> spawn rest start goal)))
                 start goal = o
  | Receiving n =>
      ∃ sched, collect sched n (omap pending (pool c)) start goal = o
  | Returned v => o = Return v
  end.
End Invariant.

End Interleaving.

(** ** Guards used in examples *)

Definition always_pass : Guard := λ _ _, Done None.

Definition always_fail (reason : string) : Guard :=
  λ _ _, Done (Some (errorString reason)).

Definition never_returns : Guard := λ _ _, Hang.

(** The two assignments an option of [New] can make. *)
Definition set_Rules (r : Ruleset) : Machine → Machine :=
  λ m, {| Rules := Some r; Current := Current m |}.

Definition set_State (s : State) : Machine → Machine :=
  λ m, {| Rules := Rules m; Current := s |}.

(** ** Rulesets holding default guards only *)

(** Every guard of every entry is the default guard of the entry's key, as
    in a ruleset built by [AddTransition] alone. *)
Definition default_only (r : Ruleset) : Prop :=
  ∀ k guards, r !! k = Some guards → Forall (λ g, g = default_guard k) guards.

(** ** Counting registrations *)

(** How many times [k] is listed in [ts]. *)
Definition occurrences (k : Transition) (ts : list Transition) : nat :=
  length (filter (λ t, t = k) ts).

(** ** The work left in a permission check *)

(** A running goroutine has its call and its send ahead, a sending one its
    send. *)
Definition goroutine_weight (g : Interleaving.Goroutine) : nat :=
  match g with
  | Interleaving.Running _ => 2
  | Interleaving.Sending _ => 1
  | Interleaving.Exited => 0
  end.

(** The caller of a check on [N] guards has its launches, the entry into
    the second loop, its receives and its return ahead. *)
Definition caller_weight (N : nat) (k : Interleaving.Caller) : nat :=
  match k with
  | Interleaving.Launching rest => 3 * length rest + N + 2
  | Interleaving.Receiving n => n + 1
  | Interleaving.Returned _ => 0
  end.

Definition weight (N : nat) (c : Interleaving.Config) : nat :=
  caller_weight N (Interleaving.caller c)
  + sum_list_with goroutine_weight (Interleaving.pool c).

(** * Properties *)

(** ** Formatting *)

Lemma append_empty_r (s : string) : s +:+ "" = s.
Proof.
  induction s as [|c s IH]; [reflexivity|].
  change (String c (s +:+ "") = String c s). by rewrite IH.
Qed.

Lemma append_assoc (s1 s2 s3 : string) : (s1 +:+ s2) +:+ s3 = s1 +:+ s2 +:+ s3.
Proof.
  induction s1 as [|c s1 IH]; [reflexivity|].
  change (String c ((s1 +:+ s2) +:+ s3) = String c (s1 +:+ s2 +:+ s3)).
  by rewrite IH.
Qed.

Lemma Sprintf_transition (a b : string) :
  Fmt.Sprintf errTransitionFormat [a; b]
  = "Cannot transition from " +:+ a +:+ " to " +:+ b.
Proof. cbn. by rewrite append_empty_r. Qed.

Lemma Sprintf_no_rules (a b : string) :
  Fmt.Sprintf errNoRulesFormat [a; b]
  = "No rules found for " +:+ a +:+ " to " +:+ b.
Proof. cbn. by rewrite append_empty_r. Qed.

Lemma Sprintf_guard_failed (a b c : string) :
  Fmt.Sprintf errGuardFailedFormat [a; b; c]
  = "Guard failed from " +:+ a +:+ " to " +:+ b +:+ ": " +:+ c.
Proof. cbn. by rewrite append_empty_r. Qed.

(** A no-rules error is never a guard-failure error: their messages differ
    from the first character on. *)
Lemma no_rules_not_guard_failure (start goal : State) :
  ¬ is_guard_failure (NoRulesError start goal).
Proof.
  intros (s & g & reason & Heq).
  unfold NoRulesError, GuardFailedError, Errorf in Heq.
  rewrite Sprintf_no_rules, Sprintf_guard_failed in Heq.
  discriminate Heq.
Qed.

Lemma guard_failure_not_no_rules (e : error) :
  is_guard_failure e → ¬ is_no_rules e.
Proof.
  intros (s & g & reason & ->) (s' & g' & Heq).
  unfold NoRulesError, GuardFailedError, Errorf in Heq.
  rewrite Sprintf_no_rules, Sprintf_guard_failed in Heq.
  discriminate Heq.
Qed.

Lemma no_rules_mentions (start goal : State) :
  Fmt.Contains (Error (NoRulesError start goal)) (ID start)
  ∧ Fmt.Contains (Error (NoRulesError start goal)) (ID goal).
Proof.
  unfold NoRulesError, Errorf; cbn [Error]. rewrite Sprintf_no_rules. split.
  - by exists "No rules found for ", (" to " +:+ ID goal).
  - exists ("No rules found for " +:+ ID start +:+ " to "), "".
    by rewrite append_empty_r, !append_assoc.
Qed.

Lemma guard_failed_mentions (start goal : State) (reason : string) :
  Fmt.Contains (Error (GuardFailedError start goal reason)) reason.
Proof.
  unfold GuardFailedError, Errorf; cbn [Error]. rewrite Sprintf_guard_failed.
  exists ("Guard failed from " +:+ ID start +:+ " to " +:+ ID goal +:+ ": "), "".
  by rewrite append_empty_r, !append_assoc.
Qed.

(** ** The receive loop *)

Lemma scheduled_index_lt (sched : list nat) {A} (v0 : A) (l : list A) :
  hd 0 sched `mod` length (v0 :: l) < length (v0 :: l).
Proof. apply Nat.mod_upper_bound. cbn [length]. lia. Qed.

Lemma elem_of_delete_other {A} (l : list A) (i : nat) (x : A) :
  x ∈ l → l !! i ≠ Some x → x ∈ delete i l.
Proof.
  revert i. induction l as [|y l IH]; intros i Hx Hi.
  - by apply not_elem_of_nil in Hx.
  - destruct i as [|i]; cbn in *.
    + apply elem_of_cons in Hx as [->|Hx]; [congruence | done].
    + apply elem_of_cons in Hx as [->|Hx]; [left | right; by apply IH].
Qed.

Lemma elem_of_delete_inv {A} (l : list A) (i : nat) (x : A) :
  x ∈ delete i l → x ∈ l.
Proof.
  revert i. induction l as [|y l IH]; intros [|i] Hx; cbn in *; try done.
  - by right.
  - apply elem_of_cons in Hx as [->|Hx]; [left | right; by eapply IH].
Qed.

(** Every offered value is nil and there is one per iteration: the loop
    ends and [Permitted] returns nil, whatever the order of arrival. *)
Lemma collect_all_nil (sched : list nat) (n : nat) (ready : list (option error))
    (start goal : State) :
  Forall (λ v, v = None) ready →
  length ready = n →
  collect sched n ready start goal = Return None.
Proof.
  revert sched ready. induction n as [|n IH]; intros sched ready Hnil Hlen.
  - reflexivity.
  - destruct ready as [|v0 l]; [discriminate Hlen|].
    cbn [collect].
    pose proof (scheduled_index_lt sched v0 l) as Hlt.
    set (i := hd 0 sched `mod` length (v0 :: l)) in *.
    destruct (lookup_lt_is_Some_2 (v0 :: l) i Hlt) as [v Hv].
    rewrite nth_lookup, Hv. cbn [default].
    rewrite (proj1 (Forall_lookup _ _) Hnil i v Hv).
    apply IH.
    + by apply Forall_delete.
    + rewrite length_delete by eauto. rewrite Hlen. lia.
Qed.

(** One offered value is an error: the loop returns a guard-failure error
    made from an offered error, whatever the order of arrival and whether
    or not the other goroutines ever send. *)
Lemma collect_some_error (sched : list nat) (n : nat) (ready : list (option error))
    (start goal : State) (e : error) :
  Some e ∈ ready →
  length ready ≤ n →
  ∃ e', Some e' ∈ ready
        ∧ collect sched n ready start goal
          = Return (Some (GuardFailedError start goal (Error e'))).
Proof.
  revert sched ready. induction n as [|n IH]; intros sched ready He Hlen.
  - destruct ready; [by apply not_elem_of_nil in He | cbn in Hlen; lia].
  - destruct ready as [|v0 l]; [by apply not_elem_of_nil in He|].
    cbn [collect].
    pose proof (scheduled_index_lt sched v0 l) as Hlt.
    set (i := hd 0 sched `mod` length (v0 :: l)) in *.
    destruct (lookup_lt_is_Some_2 (v0 :: l) i Hlt) as [v Hv].
    rewrite nth_lookup, Hv. cbn [default].
    destruct v as [err|].
    + exists err. split; [|reflexivity].
      apply list_elem_of_lookup. eauto.
    + destruct (IH (tl sched) (delete i (v0 :: l))) as (e' & He' & Hres).
      * apply elem_of_delete_other; [done | congruence].
      * rewrite length_delete by eauto. cbn [length] in *. lia.
      * exists e'. split; [by eapply elem_of_delete_inv | done].
Qed.

(** No offered value is an error and fewer values are offered than
    iterations remain: the caller waits for ever. *)
Lemma collect_block (sched : list nat) (n : nat) (ready : list (option error))
    (start goal : State) :
  Forall (λ v, v = None) ready →
  length ready < n →
  collect sched n ready start goal = Block.
Proof.
  revert sched ready. induction n as [|n IH]; intros sched ready Hnil Hlen; [lia|].
  destruct ready as [|v0 l]; [reflexivity|].
  cbn [collect].
  pose proof (scheduled_index_lt sched v0 l) as Hlt.
  set (i := hd 0 sched `mod` length (v0 :: l)) in *.
  destruct (lookup_lt_is_Some_2 (v0 :: l) i Hlt) as [v Hv].
  rewrite nth_lookup, Hv. cbn [default].
  rewrite (proj1 (Forall_lookup _ _) Hnil i v Hv).
  apply IH.
  - by apply Forall_delete.
  - rewrite length_delete by eauto. cbn [length] in *. lia.
Qed.

(** As many values are offered as iterations remain: the loop ends. *)
Lemma collect_returns (sched : list nat) (n : nat) (ready : list (option error))
    (start goal : State) :
  n ≤ length ready →
  ∃ v, collect sched n ready start goal = Return v.
Proof.
  revert sched ready. induction n as [|n IH]; intros sched ready Hlen.
  - by exists None.
  - destruct ready as [|v0 l]; [cbn in Hlen; lia|].
    cbn [collect].
    pose proof (scheduled_index_lt sched v0 l) as Hlt.
    set (i := hd 0 sched `mod` length (v0 :: l)) in *.
    destruct (nth i (v0 :: l) v0) as [err|]; [by eexists|].
    apply IH. rewrite length_delete by (by apply lookup_lt_is_Some_2).
    cbn [length] in *. lia.
Qed.

(** ** What the goroutines offer *)

Lemma elem_of_offers_spawn (guards : list Guard) (start goal : State)
    (v : option error) :
  v ∈ offers (spawn guards start goal)
  ↔ ∃ g, g ∈ guards ∧ g start goal = Done v.
Proof.
  unfold offers, spawn. rewrite list_elem_of_omap. split.
  - intros (c & Hc & Hv). apply list_elem_of_fmap in Hc as (g & -> & Hg).
    exists g. split; [done|]. unfold run in Hv; cbn in Hv.
    by destruct (g start goal) as [v'|]; simplify_eq.
  - intros (g & Hg & Hv). exists (go g start goal). split.
    + apply list_elem_of_fmap. eauto.
    + unfold run; cbn. by rewrite Hv.
Qed.

Lemma length_offers_spawn (guards : list Guard) (start goal : State) :
  length (offers (spawn guards start goal)) ≤ length guards.
Proof.
  unfold offers, spawn, run. induction guards as [|g guards IH]; cbn; [lia|].
  destruct (g start goal); cbn; lia.
Qed.

Lemma length_offers_spawn_all (guards : list Guard) (start goal : State) :
  (∀ g, g ∈ guards → ∃ v, g start goal = Done v) →
  length (offers (spawn guards start goal)) = length guards.
Proof.
  unfold offers, spawn, run. induction guards as [|g guards IH]; intros Hall.
  - reflexivity.
  - destruct (Hall g) as [v Hv]; [left|].
    cbn. rewrite Hv. cbn. f_equal. apply IH.
    intros g' Hg'. apply Hall. by right.
Qed.

(** ** Registration *)

Lemma index_lookup (r : Ruleset) (t : Transition) (guards : list Guard) :
  r !! t = Some guards → index r t = guards.
Proof. unfold index. by intros ->. Qed.

Lemma AddRule_nil (t : Transition) (r : Ruleset) : AddRule t [] r = r.
Proof. reflexivity. Qed.

Lemma AddRule_cons (t : Transition) (g : Guard) (guards : list Guard) (r : Ruleset) :
  AddRule t (g :: guards) r = AddRule t guards (<[t := index r t ++ [g]]> r).
Proof. reflexivity. Qed.

Lemma AddRule_lookup_ne (t t' : Transition) (guards : list Guard) (r : Ruleset) :
  t ≠ t' → AddRule t guards r !! t' = r !! t'.
Proof.
  revert r. induction guards as [|g guards IH]; intros r Hne; [done|].
  rewrite AddRule_cons, IH by done. by rewrite lookup_insert_ne.
Qed.

Lemma AddRule_lookup (t : Transition) (guards : list Guard) (r : Ruleset) :
  guards ≠ [] → AddRule t guards r !! t = Some (index r t ++ guards).
Proof.
  revert r. induction guards as [|g guards IH]; intros r Hne; [done|].
  rewrite AddRule_cons. destruct guards as [|g' guards].
  - cbn. by rewrite lookup_insert_eq.
  - rewrite IH by done. unfold index at 1. rewrite lookup_insert_eq. cbn.
    by rewrite <- app_assoc.
Qed.

Lemma index_AddRule (t : Transition) (guards : list Guard) (r : Ruleset) :
  index (AddRule t guards r) t = index r t ++ guards.
Proof.
  destruct guards as [|g guards].
  - by rewrite AddRule_nil, app_nil_r.
  - unfold index at 1. by rewrite AddRule_lookup.
Qed.

(** ** The permission check *)

Lemma Permitted_run_found (sched : list nat) (r : Ruleset) (start goal : State)
    (guards : list Guard) :
  r !! T (ID start) (ID goal) = Some guards →
  Permitted_run sched r start goal
  = {| launched := spawn guards start goal;
       outcome := collect sched (length guards)
                    (offers (spawn guards start goal)) start goal |}.
Proof. unfold Permitted_run. by intros ->. Qed.

Lemma Permitted_run_absent (sched : list nat) (r : Ruleset) (start goal : State) :
  r !! T (ID start) (ID goal) = None →
  Permitted_run sched r start goal
  = {| launched := []; outcome := Return (Some (NoRulesError start goal)) |}.
Proof. unfold Permitted_run. by intros ->. Qed.

(** The run depends on the ruleset through the entry of the key
    [T{start.ID(), goal.ID()}] alone. *)
Lemma Permitted_run_ext (sched : list nat) (r r' : Ruleset) (start goal : State) :
  r !! T (ID start) (ID goal) = r' !! T (ID start) (ID goal) →
  Permitted_run sched r start goal = Permitted_run sched r' start goal.
Proof. unfold Permitted_run. by intros ->. Qed.

Lemma Permitted_found (sched : list nat) (r : Ruleset) (start goal : State)
    (guards : list Guard) :
  r !! T (ID start) (ID goal) = Some guards →
  Permitted sched r start goal
  = collect sched (length guards) (offers (spawn guards start goal)) start goal.
Proof. intros Hr. unfold Permitted. by rewrite (Permitted_run_found _ _ _ _ guards). Qed.

Lemma Permitted_absent (sched : list nat) (r : Ruleset) (start goal : State) :
  r !! T (ID start) (ID goal) = None →
  Permitted sched r start goal = Return (Some (NoRulesError start goal)).
Proof. intros Hr. unfold Permitted. by rewrite Permitted_run_absent. Qed.

(** Every guard of the entry returns nil: [Permitted] returns nil. *)
Lemma Permitted_all_pass (sched : list nat) (r : Ruleset) (start goal : State)
    (guards : list Guard) :
  r !! T (ID start) (ID goal) = Some guards →
  (∀ g, g ∈ guards → g start goal = Done None) →
  Permitted sched r start goal = Return None.
Proof.
  intros Hr Hpass. rewrite (Permitted_found _ _ _ _ guards Hr).
  apply collect_all_nil.
  - apply Forall_forall. intros v Hv.
    apply elem_of_offers_spawn in Hv as (g & Hg & Hdone).
    rewrite (Hpass g Hg) in Hdone. congruence.
  - apply length_offers_spawn_all. intros g Hg. exists None. by apply Hpass.
Qed.

(** One guard of the entry returns an error: [Permitted] returns the
    guard-failure error of a guard of the entry that returns an error. *)
Lemma Permitted_one_fails (sched : list nat) (r : Ruleset) (start goal : State)
    (guards : list Guard) (g : Guard) (e : error) :
  r !! T (ID start) (ID goal) = Some guards →
  g ∈ guards →
  g start goal = Done (Some e) →
  ∃ g' e', g' ∈ guards ∧ g' start goal = Done (Some e')
           ∧ Permitted sched r start goal
             = Return (Some (GuardFailedError start goal (Error e'))).
Proof.
  intros Hr Hg He. rewrite (Permitted_found _ _ _ _ guards Hr).
  destruct (collect_some_error sched (length guards)
              (offers (spawn guards start goal)) start goal e)
    as (e' & He' & Hres).
  - apply elem_of_offers_spawn. eauto.
  - apply length_offers_spawn.
  - apply elem_of_offers_spawn in He' as (g' & Hg' & Hdone). eauto.
Qed.

Lemma length_offers_spawn_hang (guards : list Guard) (start goal : State)
    (g : Guard) :
  g ∈ guards → g start goal = Hang →
  length (offers (spawn guards start goal)) < length guards.
Proof.
  intros Hg Hhang. induction Hg as [g guards|g g' guards Hg IH].
  - pose proof (length_offers_spawn guards start goal) as Hle.
    unfold offers, spawn, run in *. cbn. rewrite Hhang. lia.
  - specialize (IH Hhang). unfold offers, spawn, run in *. cbn.
    destruct (g' start goal); cbn; lia.
Qed.

(** Every guard of the entry returns: [Permitted] returns. *)
Lemma Permitted_returns (sched : list nat) (r : Ruleset) (start goal : State) :
  (∀ guards g, r !! T (ID start) (ID goal) = Some guards → g ∈ guards →
               ∃ v, g start goal = Done v) →
  ∃ v, Permitted sched r start goal = Return v.
Proof.
  intros Hdone. destruct (r !! T (ID start) (ID goal)) as [guards|] eqn:Hr.
  - rewrite (Permitted_found _ _ _ _ guards Hr). apply collect_returns.
    rewrite length_offers_spawn_all; [done|]. intros g Hg. by eapply Hdone.
  - rewrite Permitted_absent by done. by eexists.
Qed.

(** A guard of the entry never returns and none returns an error:
    [Permitted] never returns.  There is no timeout. *)
Lemma Permitted_waits_for_ever (sched : list nat) (r : Ruleset) (start goal : State)
    (guards : list Guard) (g : Guard) :
  r !! T (ID start) (ID goal) = Some guards →
  g ∈ guards → g start goal = Hang →
  (∀ g' e, g' ∈ guards → g' start goal ≠ Done (Some e)) →
  Permitted sched r start goal = Block.
Proof.
  intros Hr Hg Hhang Hnofail. rewrite (Permitted_found _ _ _ _ guards Hr).
  apply collect_block.
  - apply Forall_forall. intros [e|] Hv; [|done].
    apply elem_of_offers_spawn in Hv as (g' & Hg' & Hdone).
    by destruct (Hnofail g' e Hg').
  - by eapply length_offers_spawn_hang.
Qed.

Example Permitted_waits_on_never_returns :
  Permitted [] (AddRule (T "a" "b") [always_pass; never_returns] ∅)
    (NewState "a") (NewState "b")
  = Block.
Proof. reflexivity. Qed.

Example Permitted_fails_despite_never_returns :
  Permitted [] (AddRule (T "a" "b") [never_returns; always_fail "closed"] ∅)
    (NewState "a") (NewState "b")
  = Return (Some (errorString "Guard failed from a to b: closed")).
Proof. reflexivity. Qed.

(** ** The machine *)

Lemma Machine_Transition_unfold (sched : list nat) (goal : State) (m : Machine)
    (r : Ruleset) :
  Rules m = Some r →
  Machine_Transition sched goal m
  = match Permitted sched r (Current m) goal with
    | Return None => Return (None, {| Rules := Rules m; Current := goal |})
    | Return (Some e) => Return (Some e, m)
    | Block => Block
    | Panic msg => Panic msg
    end.
Proof.
  intros Hr. unfold Machine_Transition. rewrite Hr. cbn.
  by destruct (Permitted sched r (Current m) goal) as [[e|]| |msg].
Qed.

(** ** Rulesets built by [AddTransition] alone *)

Lemma default_guard_passes (t : Transition) (start goal : State) :
  ID start = ID (Origin t) → default_guard t start goal = Done None.
Proof. intros Heq. unfold default_guard. by rewrite decide_False by auto. Qed.

Lemma default_guard_fails (t : Transition) (start goal : State) :
  ID start ≠ ID (Origin t) →
  default_guard t start goal
  = Done (Some (Errorf errTransitionFormat [ID start; ID goal])).
Proof. intros Hne. unfold default_guard. by rewrite decide_True. Qed.

Lemma AddTransition_lookup (t : Transition) (r : Ruleset) :
  AddTransition t r !! t = Some (index r t ++ [default_guard t]).
Proof. unfold AddTransition. by apply AddRule_lookup. Qed.

Lemma AddTransition_lookup_ne (t t' : Transition) (r : Ruleset) :
  t ≠ t' → AddTransition t r !! t' = r !! t'.
Proof. unfold AddTransition. apply AddRule_lookup_ne. Qed.

Lemma default_only_AddTransition (t : Transition) (r : Ruleset) :
  default_only r → default_only (AddTransition t r).
Proof.
  intros Hr k guards. destruct (decide (t = k)) as [<-|Hne].
  - rewrite AddTransition_lookup. intros [= <-].
    apply Forall_app. split; [|by repeat constructor].
    unfold index. destruct (r !! t) as [gs|] eqn:Ht; cbn; [by eapply Hr | constructor].
  - rewrite AddTransition_lookup_ne by done. apply Hr.
Qed.

Lemma foldl_AddTransition_default_only (ts : list Transition) (r : Ruleset) :
  default_only r → default_only (foldl (λ r t, AddTransition t r) r ts).
Proof.
  revert r. induction ts as [|t ts IH]; intros r Hr; cbn [foldl]; [done|].
  apply IH. by apply default_only_AddTransition.
Qed.

Lemma foldl_AddTransition_is_Some (ts : list Transition) (r : Ruleset) (k : Transition) :
  is_Some (foldl (λ r t, AddTransition t r) r ts !! k) ↔ k ∈ ts ∨ is_Some (r !! k).
Proof.
  revert r. induction ts as [|t ts IH]; intros r; cbn [foldl].
  - rewrite elem_of_nil. tauto.
  - rewrite IH, elem_of_cons. destruct (decide (t = k)) as [<-|Hne].
    + rewrite AddTransition_lookup. split; [auto | eauto].
    + rewrite AddTransition_lookup_ne by done. split; [tauto|].
      intros [[->|?]|?]; [done | auto | auto].
Qed.

Lemma CreateRuleset_default_only (ts : list Transition) :
  default_only (CreateRuleset ts).
Proof. apply foldl_AddTransition_default_only. intros k guards. by rewrite lookup_empty. Qed.

Lemma CreateRuleset_is_Some (ts : list Transition) (k : Transition) :
  is_Some (CreateRuleset ts !! k) ↔ k ∈ ts.
Proof.
  unfold CreateRuleset. rewrite foldl_AddTransition_is_Some, lookup_empty.
  split; [intros [?|[? [=]]]; done | auto].
Qed.

(** On such a ruleset [Permitted] is the membership test of the key
    [T{start.ID(), goal.ID()}]: the default guards it finds always pass. *)
Lemma Permitted_default_only (sched : list nat) (r : Ruleset) (start goal : State) :
  default_only r →
  Permitted sched r start goal
  = match r !! T (ID start) (ID goal) with
    | Some _ => Return None
    | None => Return (Some (NoRulesError start goal))
    end.
Proof.
  intros Hr. destruct (r !! T (ID start) (ID goal)) as [guards|] eqn:Hk.
  - apply (Permitted_all_pass _ _ _ _ guards Hk). intros g Hg.
    pose proof (proj1 (Forall_forall _ _) (Hr _ _ Hk) g Hg) as ->.
    by apply default_guard_passes.
  - by apply Permitted_absent.
Qed.

Lemma Permitted_CreateRuleset (sched : list nat) (ts : list Transition)
    (start goal : State) :
  Permitted sched (CreateRuleset ts) start goal
  = if decide (T (ID start) (ID goal) ∈ ts)
    then Return None
    else Return (Some (NoRulesError start goal)).
Proof.
  rewrite Permitted_default_only by apply CreateRuleset_default_only.
  pose proof (CreateRuleset_is_Some ts (T (ID start) (ID goal))) as Hdom.
  destruct (CreateRuleset ts !! T (ID start) (ID goal)) as [guards|].
  - rewrite decide_True; [done|]. apply Hdom. eauto.
  - rewrite decide_False; [done|]. intros Hin. apply Hdom in Hin as [? [=]].
Qed.

Lemma New_keeps_nil_rules (opts : list (Machine → Machine)) (m : Machine) :
  Forall (λ opt, ∀ m, Rules (opt m) = Rules m) opts →
  Rules (foldl (λ m opt, opt m) m opts) = Rules m.
Proof.
  revert m. induction opts as [|opt opts IH]; intros m Hopts; cbn [foldl]; [done|].
  apply Forall_cons in Hopts as [Hopt Hopts]. by rewrite IH, Hopt.
Qed.

(** ** Positions in a filtered list *)

Lemma omap_cons_Some {A B} (f : A → option B) (a : A) (l : list A) (b : B) :
  f a = Some b → omap f (a :: l) = b :: omap f l.
Proof. intros Ha. cbn. by rewrite Ha. Qed.

Lemma omap_cons_None {A B} (f : A → option B) (a : A) (l : list A) :
  f a = None → omap f (a :: l) = omap f l.
Proof. intros Ha. cbn. by rewrite Ha. Qed.

Lemma omap_position {A B} (f : A → option B) (l : list A) (j : nat) (x : A) (y : B) :
  l !! j = Some x → f x = Some y →
  ∃ i, omap f l !! i = Some y
       ∧ ∀ z, f z = None → omap f (<[j := z]> l) = delete i (omap f l).
Proof.
  revert j. induction l as [|a l IH]; intros j Hj Hx; [done|].
  destruct j as [|j]; cbn in Hj.
  - injection Hj as ->. exists 0. rewrite (omap_cons_Some f x l y Hx).
    split; [done|]. intros z Hz.
    change (<[0:=z]> (x :: l)) with (z :: l). by rewrite omap_cons_None.
  - destruct (IH j Hj Hx) as (i & Hi & Hdel).
    destruct (f a) as [b|] eqn:Ha.
    + exists (S i). rewrite (omap_cons_Some f a l b Ha). split; [done|].
      intros z Hz. change (<[S j:=z]> (a :: l)) with (a :: <[j:=z]> l).
      rewrite (omap_cons_Some f a _ b Ha), Hdel by done. done.
    + exists i. rewrite (omap_cons_None f a l Ha). split; [done|].
      intros z Hz. change (<[S j:=z]> (a :: l)) with (a :: <[j:=z]> l).
      rewrite (omap_cons_None f a _ Ha). by apply Hdel.
Qed.

Lemma omap_lookup_source {A B} (f : A → option B) (l : list A) (i : nat) (y : B) :
  omap f l !! i = Some y →
  ∃ j x, l !! j = Some x ∧ f x = Some y
         ∧ ∀ z, f z = None → omap f (<[j := z]> l) = delete i (omap f l).
Proof.
  revert i. induction l as [|a l IH]; intros i Hi; [done|].
  destruct (f a) as [b|] eqn:Ha.
  - rewrite (omap_cons_Some f a l b Ha) in Hi |- *.
    destruct i as [|i]; cbn in Hi.
    + injection Hi as ->. exists 0, a. split; [done|]. split; [done|].
      intros z Hz. change (<[0:=z]> (a :: l)) with (z :: l).
      by rewrite omap_cons_None.
    + destruct (IH i Hi) as (j & x & Hj & Hx & Hdel).
      exists (S j), x. split; [done|]. split; [done|].
      intros z Hz. change (<[S j:=z]> (a :: l)) with (a :: <[j:=z]> l).
      rewrite (omap_cons_Some f a _ b Ha), Hdel by done. done.
  - rewrite (omap_cons_None f a l Ha) in Hi |- *.
    destruct (IH i Hi) as (j & x & Hj & Hx & Hdel).
    exists (S j), x. split; [done|]. split; [done|].
    intros z Hz. change (<[S j:=z]> (a :: l)) with (a :: <[j:=z]> l).
    rewrite (omap_cons_None f a _ Ha). by apply Hdel.
Qed.

Lemma omap_insert_same {A B} (f : A → option B) (l : list A) (j : nat) (x z : A) :
  l !! j = Some x → f z = f x → omap f (<[j := z]> l) = omap f l.
Proof.
  revert j. induction l as [|a l IH]; intros j Hj Hz; [done|].
  destruct j as [|j]; cbn in Hj.
  - injection Hj as ->. change (<[0:=z]> (x :: l)) with (z :: l).
    destruct (f x) as [b|] eqn:Hx.
    + by rewrite (omap_cons_Some f z l b Hz), (omap_cons_Some f x l b Hx).
    + by rewrite (omap_cons_None f z l Hz), (omap_cons_None f x l Hx).
  - change (<[S j:=z]> (a :: l)) with (a :: <[j:=z]> l).
    destruct (f a) as [b|] eqn:Ha.
    + by rewrite !(omap_cons_Some f a _ b Ha), (IH j Hj Hz).
    + by rewrite !(omap_cons_None f a _ Ha), (IH j Hj Hz).
Qed.

(** The arrival that the schedule [i :: sched] picks first is [ready !! i]. *)
Lemma collect_pick (i : nat) (sched : list nat) (n : nat)
    (ready : list (option error)) (start goal : State) (v : option error) :
  ready !! i = Some v →
  collect (i :: sched) (S n) ready start goal
  = match v with
    | Some err => Return (Some (GuardFailedError start goal (Error err)))
    | None => collect sched n (delete i ready) start goal
    end.
Proof.
  intros Hi. destruct ready as [|v0 l]; [done|].
  cbn [collect hd tl].
  rewrite Nat.mod_small by (by eapply lookup_lt_Some).
  by rewrite nth_lookup, Hi.
Qed.

(** ** The goroutines of a permission check *)

Section PoolInvariant.
Import Interleaving.

Lemma received_cons (g : Goroutine) (p : list Goroutine) :
  received (g :: p) = (if is_exited g then 1 else 0) + received p.
Proof.
  unfold received. rewrite filter_cons.
  destruct (is_exited g); by destruct (decide _).
Qed.

Lemma received_app (p q : list Goroutine) :
  received (p ++ q) = received p + received q.
Proof. unfold received. by rewrite filter_app, length_app. Qed.

Lemma received_le_length (p : list Goroutine) : received p ≤ length p.
Proof. apply length_filter. Qed.

Lemma received_insert_same (p : list Goroutine) (i : nat) (g z : Goroutine) :
  p !! i = Some g → is_exited z = is_exited g →
  received (<[i := z]> p) = received p.
Proof.
  revert i. induction p as [|a p IH]; intros i Hi Hz; [done|].
  destruct i as [|i]; cbn in Hi.
  - injection Hi as ->. change (<[0:=z]> (g :: p)) with (z :: p).
    by rewrite !received_cons, Hz.
  - change (<[S i:=z]> (a :: p)) with (a :: <[i:=z]> p).
    by rewrite !received_cons, (IH i Hi Hz).
Qed.

Lemma received_insert_exited (p : list Goroutine) (i : nat) (g : Goroutine) :
  p !! i = Some g → is_exited g = false →
  received (<[i := Exited]> p) = S (received p).
Proof.
  revert i. induction p as [|a p IH]; intros i Hi Hg; [done|].
  destruct i as [|i]; cbn in Hi.
  - injection Hi as ->. change (<[0:=Exited]> (g :: p)) with (Exited :: p).
    by rewrite !received_cons, Hg.
  - change (<[S i:=Exited]> (a :: p)) with (a :: <[i:=Exited]> p).
    rewrite !received_cons, (IH i Hi Hg). lia.
Qed.

Variable guards : list Guard.
Variables start goal : State.

Local Abbreviation step := (step guards start goal).
Local Abbreviation invariant := (invariant guards start goal).
Local Abbreviation tracks := (tracks start goal).

Lemma tracks_insert (gs : list Guard) (p : list Goroutine) (i : nat)
    (g : Guard) (gr : Goroutine) :
  Forall2 tracks gs p → gs !! i = Some g → tracks g gr →
  Forall2 tracks gs (<[i := gr]> p).
Proof.
  intros Hgs Hg Htr. rewrite <- (list_insert_id gs i g Hg).
  by apply Forall2_insert.
Qed.

Lemma invariant_initial : invariant (initial guards).
Proof. exists []. split; [constructor | done]. Qed.

Lemma invariant_step (c c' : Config) :
  step c c' → invariant c → invariant c'.
Proof.
  intros Hstep (gs & Hgs & Hcaller).
  destruct Hstep as [g rest p | p | k p i c v Hi Hrun | n p i Hi | n p i err Hi | p];
    cbn [caller pool] in *.
  - destruct Hcaller as [-> Hrec]. exists (gs ++ [g]). split.
    + apply Forall2_app; [done|]. by repeat constructor.
    + cbn [caller pool]. split; [by rewrite <- app_assoc|].
      rewrite received_app, Hrec. reflexivity.
  - destruct Hcaller as [Hgsr Hrec]. rewrite app_nil_r in Hgsr. subst gs.
    exists guards. split; [done|]. cbn [caller pool]. split; [done|]. lia.
  - destruct (Forall2_lookup_r _ _ _ _ _ Hgs Hi) as (g & Hg & Htr).
    cbn in Htr. subst c. unfold run in Hrun; cbn in Hrun.
    exists gs. split; [by eapply tracks_insert|]. cbn [caller pool].
    by rewrite (received_insert_same p i (Running (go g start goal)) (Sending v) Hi eq_refl).
  - destruct (Forall2_lookup_r _ _ _ _ _ Hgs Hi) as (g & Hg & Htr).
    destruct Hcaller as [-> Hrec].
    exists guards. split; [by eapply tracks_insert|].
    cbn [caller pool]. split; [done|].
    rewrite (received_insert_exited p i _ Hi eq_refl). lia.
  - destruct (Forall2_lookup_r _ _ _ _ _ Hgs Hi) as (g & Hg & Htr).
    destruct Hcaller as [-> Hrec].
    exists guards. split; [by eapply tracks_insert|].
    cbn [caller pool]. split; [done|].
    rewrite (received_insert_exited p i _ Hi eq_refl). lia.
  - destruct Hcaller as [-> Hrec]. exists guards. split; [done|].
    cbn [caller pool]. split; [done | lia].
Qed.

Lemma invariant_steps (c c' : Config) :
  rtc step c c' → invariant c → invariant c'.
Proof.
  induction 1 as [|c1 c2 c3 Hstep _ IH]; [done|].
  intros Hc. by eapply IH, invariant_step.
Qed.

Lemma invariant_reachable (c : Config) :
  reachable guards start goal c → invariant c.
Proof.
  intros Hrtc. eapply invariant_steps; [exact Hrtc | apply invariant_initial].
Qed.

(** Once the caller is back, it stays back with the same result, and a
    goroutine blocked on its send stays blocked: nobody receives. *)
Lemma returned_step (c c' : Config) (v : option error) :
  caller c = Returned v → step c c' →
  caller c' = Returned v
  ∧ ∃ i call w, pool c !! i = Some (Running call) ∧ run call = Done w
                ∧ pool c' = <[i := Sending w]> (pool c).
Proof.
  intros Hret Hstep.
  destruct Hstep as [g rest p | p | k p i c v0 Hi Hrun | n p i Hi | n p i err Hi | p];
    cbn [caller pool] in *; try discriminate.
  split; [done|]. eauto 6.
Qed.

Lemma returned_steps (c c' : Config) (v : option error) :
  caller c = Returned v → rtc step c c' →
  caller c' = Returned v
  ∧ ∀ i w, pool c !! i = Some (Sending w) → pool c' !! i = Some (Sending w).
Proof.
  intros Hret Hsteps. induction Hsteps as [c|c1 c2 c3 Hstep _ IH]; [done|].
  destruct (returned_step c1 c2 v Hret Hstep) as (Hret2 & j & call & w' & Hj & _ & Hp).
  destruct (IH Hret2) as [Hret3 Hkeep]. split; [done|].
  intros i w Hi. apply Hkeep. rewrite Hp.
  rewrite list_lookup_insert_ne; [done|]. intros <-. congruence.
Qed.
End PoolInvariant.

Section StepFacts.
Import Interleaving.
Variable guards : list Guard.
Variables start goal : State.

Local Abbreviation step := (step guards start goal).

(** The goroutine at position [i] belongs to the guard at position [i]. *)
Lemma reachable_tracks (c : Config) :
  reachable guards start goal c →
  ∃ gs, Forall2 (tracks start goal) gs (pool c)
        ∧ (∀ i g, gs !! i = Some g → guards !! i = Some g)
        ∧ ((∀ rest, caller c ≠ Launching rest) → gs = guards).
Proof.
  intros Hc. destruct (invariant_reachable _ _ _ _ Hc) as (gs & Hgs & Hcaller).
  exists gs. split; [done|].
  destruct (caller c) as [rest|n|[e|]].
  - destruct Hcaller as [-> _]. split.
    + intros i g Hi. by apply lookup_app_l_Some.
    + intros Hne. by destruct (Hne rest).
  - destruct Hcaller as [-> _]. done.
  - destruct Hcaller as [-> _]. done.
  - destruct Hcaller as [-> _]. done.
Qed.

Lemma step_keeps_running (c c' : Config) (i : nat) (call : Call) :
  step c c' → pool c !! i = Some (Running call) →
  pool c' !! i = Some (Running call)
  ∨ ∃ w, run call = Done w ∧ pool c' !! i = Some (Sending w).
Proof.
  intros Hstep Hi.
  destruct Hstep as [g rest p | p | k p j c v0 Hj Hrun | n p j Hj | n p j err Hj | p];
    cbn [caller pool] in *.
  - left. by apply lookup_app_l_Some.
  - by left.
  - destruct (decide (j = i)) as [->|Hne].
    + right. rewrite Hi in Hj. injection Hj as <-. exists v0. split; [done|].
      apply list_lookup_insert_eq. by eapply lookup_lt_Some.
    + left. by rewrite list_lookup_insert_ne.
  - left. rewrite list_lookup_insert_ne; [done|]. intros ->. congruence.
  - left. rewrite list_lookup_insert_ne; [done|]. intros ->. congruence.
  - by left.
Qed.

Lemma receiving_waits (c c' : Config) (n : nat) :
  caller c = Receiving (S n) →
  (∀ i v, pool c !! i ≠ Some (Sending v)) →
  step c c' → caller c' = Receiving (S n).
Proof.
  intros Hrecv Hnone Hstep.
  destruct Hstep as [g rest p | p | k p j c v0 Hj Hrun | k p j Hj | k p j err Hj | p];
    cbn [caller pool] in *; try discriminate; try done.
  - by destruct (Hnone j None).
  - by destruct (Hnone j (Some err)).
Qed.

Lemma receiving_stuck (c c' : Config) (n : nat) :
  caller c = Receiving (S n) →
  (∀ i gr, pool c !! i = Some gr → pending gr = None) →
  ¬ step c c'.
Proof.
  intros Hrecv Hnone Hstep.
  destruct Hstep as [g rest p | p | k p j c v0 Hj Hrun | k p j Hj | k p j err Hj | p];
    cbn [caller pool] in *; try discriminate.
  - specialize (Hnone j _ Hj). cbn in Hnone. by rewrite Hrun in Hnone.
  - by specialize (Hnone j _ Hj).
  - by specialize (Hnone j _ Hj).
Qed.
End StepFacts.

(** ** The scheduled reading against the interleavings *)

Section Adequacy.
Import Interleaving.
Variable guards : list Guard.
Variables start goal : State.

Local Abbreviation step := (step guards start goal).
Local Abbreviation ends := (ends guards start goal).
Local Abbreviation ends_under_some_schedule :=
  (ends_under_some_schedule guards start goal).

Lemma pending_spawn (gs : list Guard) :
  omap pending (Running <$> spawn gs start goal) = offers (spawn gs start goal).
Proof.
  unfold offers. induction (spawn gs start goal) as [|c l IH]; [done|].
  cbn. by rewrite IH.
Qed.

Lemma omap_pending_nil (p : list Goroutine) :
  omap pending p = [] ↔ ∀ i gr, p !! i = Some gr → pending gr = None.
Proof.
  induction p as [|g p IH].
  - split; [intros _ i gr; by rewrite lookup_nil | done].
  - destruct (pending g) as [v|] eqn:Hg.
    + rewrite (omap_cons_Some pending g p v Hg). split; [done|].
      intros Hall. specialize (Hall 0 g eq_refl). congruence.
    + rewrite (omap_cons_None pending g p Hg), IH. split.
      * intros Hall [|i] gr Hi; cbn in Hi; [congruence | by eapply Hall].
      * intros Hall i gr Hi. by apply (Hall (S i)).
Qed.

(** The first loop, run to its end before any goroutine moves. *)
Lemma launch_all (rest : list Guard) (p : list Goroutine) :
  rtc step {| caller := Launching rest; pool := p |}
           {| caller := Launching [];
              pool := p ++ (Running <$> spawn rest start goal) |}.
Proof.
  revert p. induction rest as [|g rest IH]; intros p.
  - cbn. rewrite app_nil_r. constructor.
  - eapply rtc_l; [apply step_go|].
    specialize (IH (p ++ [Running (go g start goal)])).
    by rewrite <- app_assoc in IH.
Qed.

(** The end of the receive loop under a schedule is the end of an
    interleaving. *)
Lemma collect_realised (sched : list nat) (n : nat) (p : list Goroutine)
    (o : Outcome (option error)) :
  collect sched n (omap pending p) start goal = o →
  ∃ c, rtc step {| caller := Receiving n; pool := p |} c ∧ ends c o.
Proof.
  revert sched p. induction n as [|n IH]; intros sched p Hres.
  - subst o. eexists. split; [apply rtc_once, step_done | done].
  - cbn [collect] in Hres.
    destruct (omap pending p) as [|v0 l] eqn:Hready.
    { subst o. eexists. split; [apply rtc_refl|]. split; [by eexists|].
      intros c'. eapply receiving_stuck; [done|]. by apply omap_pending_nil. }
    pose proof (scheduled_index_lt sched v0 l) as Hlt.
    set (i := hd 0 sched `mod` length (v0 :: l)) in *.
    destruct (lookup_lt_is_Some_2 (v0 :: l) i Hlt) as [w Hw].
    rewrite nth_lookup, Hw in Hres. cbn [default] in Hres.
    rewrite <- Hready in Hw.
    destruct (omap_lookup_source pending p i w Hw) as (j & gr & Hj & Hgr & Hdel).
    specialize (Hdel Exited eq_refl). rewrite Hready in Hdel.
    (* the goroutine [j] is brought to its send *)
    assert (Hsend : ∃ p', rtc step {| caller := Receiving (S n); pool := p |}
                                   {| caller := Receiving (S n); pool := p' |}
                          ∧ p' !! j = Some (Sending w)
                          ∧ <[j := Exited]> p' = <[j := Exited]> p).
    { destruct gr as [c|w'|]; cbn in Hgr.
      - destruct (run c) as [w'|] eqn:Hrun; [|discriminate].
        injection Hgr as ->. exists (<[j := Sending w]> p). split; [|split].
        + eapply rtc_once, step_eval; eauto.
        + apply list_lookup_insert_eq. by eapply lookup_lt_Some.
        + apply list_insert_insert_eq.
      - injection Hgr as ->. exists p. split; [constructor | done].
      - discriminate. }
    destruct Hsend as (p' & Hsteps & Hj' & Hp').
    destruct w as [err|].
    + subst o. eexists. split.
      * eapply rtc_r; [exact Hsteps | by apply step_recv_err].
      * reflexivity.
    + destruct (IH (tl sched) (<[j := Exited]> p)) as (c & Hc & Hend).
      { by rewrite Hdel. }
      exists c. split; [|done].
      etransitivity; [exact Hsteps|].
      eapply rtc_l; [by apply step_recv_nil|]. by rewrite Hp'.
Qed.

(** A configuration where the call has ended is scheduled as it is. *)
Lemma ended_scheduled (c : Config) (o : Outcome (option error)) :
  ends c o → ends_under_some_schedule c o.
Proof.
  unfold ends, ends_under_some_schedule. destruct o as [v| |msg]; [| |done].
  - by intros ->.
  - intros [[n Hrecv] Hstuck]. rewrite Hrecv. exists [].
    assert (Hnil : omap pending (pool c) = []).
    { apply omap_pending_nil. intros i gr Hi.
      destruct c as [k p]. cbn [caller pool] in *. subst k.
      destruct gr as [call|w|]; cbn; [|exfalso|done].
      - destruct (run call) as [w|] eqn:Hrun; [exfalso|done].
        eapply Hstuck. by eapply step_eval.
      - destruct w as [err|]; eapply Hstuck.
        + by eapply step_recv_err.
        + by eapply step_recv_nil. }
    by rewrite Hnil.
Qed.

(** One step back: what can end after the step can end before it. *)
Lemma step_scheduled (c c' : Config) (o : Outcome (option error)) :
  step c c' → ends_under_some_schedule c' o → ends_under_some_schedule c o.
Proof.
  unfold ends_under_some_schedule. intros Hstep IH.
  destruct Hstep as [g rest p | p | k p i c v0 Hi Hrun | n p i Hi | n p i err Hi | p];
    cbn [caller pool] in *.
  - destruct IH as [sched IH]. exists sched.
    by rewrite <- app_assoc in IH.
  - destruct IH as [sched IH]. exists sched.
    by rewrite app_nil_r.
  - assert (Hsame : omap pending (<[i := Sending v0]> p) = omap pending p).
    { eapply omap_insert_same; [exact Hi|]. cbn. by rewrite Hrun. }
    destruct k as [rest|n|v']; [| |done].
    + destruct IH as [sched IH]. exists sched.
      by rewrite omap_app, Hsame, <- omap_app in IH.
    + destruct IH as [sched IH]. exists sched. by rewrite Hsame in IH.
  - destruct IH as [sched IH].
    destruct (omap_position pending p i (Sending None) None Hi eq_refl)
      as (i' & Hi' & Hdel).
    exists (i' :: sched). rewrite (collect_pick _ _ _ _ _ _ None Hi').
    by rewrite <- (Hdel Exited eq_refl).
  - destruct (omap_position pending p i (Sending (Some err)) (Some err) Hi eq_refl)
      as (i' & Hi' & _).
    exists [i']. rewrite (collect_pick _ _ _ _ _ _ (Some err) Hi').
    by rewrite IH.
  - exists []. cbn. by rewrite IH.
Qed.

(** The end of an interleaving is the end of the receive loop under some
    schedule. *)
Lemma interleaving_scheduled (c c' : Config) (o : Outcome (option error)) :
  rtc step c c' → ends c' o → ends_under_some_schedule c o.
Proof.
  intros Hsteps Hend. induction Hsteps as [c|c1 c2 c3 Hstep _ IH].
  - by apply ended_scheduled.
  - eapply step_scheduled; [exact Hstep | by apply IH].
Qed.
End Adequacy.

(** The scheduled reading is adequate: with an entry [guards] for the pair,
    [Permitted] ends under some schedule with a value, or by waiting for
    ever, exactly when some interleaving of the caller and the goroutines
    ends so. *)
Theorem Permitted_interleavings (r : Ruleset) (start goal : State)
    (guards : list Guard) (o : Outcome (option error)) :
  r !! T (ID start) (ID goal) = Some guards →
  (∃ sched, Permitted sched r start goal = o)
  ↔ (∃ c, Interleaving.reachable guards start goal c
          ∧ Interleaving.ends guards start goal c o).
Proof.
  intros Hr. split.
  - intros [sched Hres]. rewrite (Permitted_found _ _ _ _ guards Hr) in Hres.
    rewrite <- pending_spawn in Hres.
    destruct (collect_realised guards start goal _ _ _ _ Hres) as (c & Hc & Hend).
    exists c. split; [|done]. unfold Interleaving.reachable.
    etransitivity; [apply launch_all|].
    eapply rtc_l; [apply Interleaving.step_launched | exact Hc].
  - intros (c & Hc & Hend).
    destruct (interleaving_scheduled guards start goal _ _ _ Hc Hend) as [sched Hres].
    exists sched. rewrite (Permitted_found _ _ _ _ guards Hr).
    by rewrite <- pending_spawn.
Qed.


(** * The claims *)

(** C1. For a machine with a non-nil ruleset, [Transition(goal)] overwrites
    the state with [goal] and returns nil if and only if [Permitted] on the
    old state and [goal] returns nil; when [Permitted] returns an error,
    the machine is left as it was and [Transition] returns that very
    error; the state of the machine after the call differs from the one
    before only on that successful path (and the ruleset pointer never
    changes). *)
Theorem Transition_commits_iff_permitted (sched : list nat) (m : Machine)
    (r : Ruleset) (goal : State) :
  Rules m = Some r →
  ((∃ m', Machine_Transition sched goal m = Return (None, m') ∧ Current m' = goal)
     ↔ Permitted sched r (Current m) goal = Return None)
  ∧ (∀ e, Permitted sched r (Current m) goal = Return (Some e) →
          Machine_Transition sched goal m = Return (Some e, m))
  ∧ (∀ err m', Machine_Transition sched goal m = Return (err, m') →
       Rules m' = Rules m
       ∧ (Current m' ≠ Current m →
            err = None ∧ Current m' = goal
            ∧ Permitted sched r (Current m) goal = Return None)).
Proof.
  intros Hr. rewrite (Machine_Transition_unfold sched goal m r Hr).
  destruct (Permitted sched r (Current m) goal) as [[e|]| |msg].
  - split; [|split].
    + split; [intros (m' & Hm' & _); discriminate Hm' | discriminate].
    + by intros e' [= <-].
    + intros err m' [= <- <-]. split; [done|]. by intros [].
  - split; [|split].
    + split; [done|]. intros _. by eexists.
    + discriminate.
    + by intros err m' [= <- <-].
  - split; [|split].
    + split; [intros (m' & Hm' & _); discriminate Hm' | discriminate].
    + discriminate.
    + discriminate.
  - split; [|split].
    + split; [intros (m' & Hm' & _); discriminate Hm' | discriminate].
    + discriminate.
    + discriminate.
Qed.

(** C1 at a machine over one rule, asked for a state with no rule. *)
Lemma Transition_commits_iff_permitted_witness :
  Rules (set_State (NewState "idle")
           (set_Rules (CreateRuleset [T "idle" "running"]) zero_Machine))
  = Some (CreateRuleset [T "idle" "running"])
  ∧ ∀ e, Permitted [] (CreateRuleset [T "idle" "running"])
           (NewState "idle") (NewState "done") = Return (Some e) →
         Machine_Transition [] (NewState "done")
           (set_State (NewState "idle")
              (set_Rules (CreateRuleset [T "idle" "running"]) zero_Machine))
         = Return (Some e,
                   set_State (NewState "idle")
                     (set_Rules (CreateRuleset [T "idle" "running"]) zero_Machine)).
Proof.
  split; [reflexivity|].
  apply (Transition_commits_iff_permitted []
           (set_State (NewState "idle")
              (set_Rules (CreateRuleset [T "idle" "running"]) zero_Machine))
           (CreateRuleset [T "idle" "running"]) (NewState "done")).
  reflexivity.
Defined.

(** C2. With an entry [g1 ... gN] for the key made of the identities of
    [start] and [goal]: if every [gi(start, goal)] returns nil then
    [Permitted(start, goal)] returns nil, for every N and every order of
    arrival; if some [gi(start, goal)] returns an error then [Permitted]
    returns a guard-failure error, whatever the other guards do, made from
    the error of a guard of the entry that fails, its message containing
    that guard's reason text: the reason of [gi] itself when no guard
    of the entry fails with another reason.  (Termination of the other
    guards is not needed.) *)
Theorem Permitted_guards_outcome (sched : list nat) (r : Ruleset)
    (start goal : State) (guards : list Guard) :
  r !! T (ID start) (ID goal) = Some guards →
  ((∀ g, g ∈ guards → g start goal = Done None) →
   Permitted sched r start goal = Return None)
  ∧ (∀ g e, g ∈ guards → g start goal = Done (Some e) →
       (∃ g' e',
          g' ∈ guards ∧ g' start goal = Done (Some e')
          ∧ Permitted sched r start goal
            = Return (Some (GuardFailedError start goal (Error e')))
          ∧ Fmt.Contains (Error (GuardFailedError start goal (Error e')))
                         (Error e'))
       ∧ ((∀ g' e', g' ∈ guards → g' start goal = Done (Some e') →
                    Error e' = Error e) →
          Permitted sched r start goal
          = Return (Some (GuardFailedError start goal (Error e)))
          ∧ Fmt.Contains (Error (GuardFailedError start goal (Error e)))
                         (Error e))).
Proof.
  intros Hr. split.
  - by apply Permitted_all_pass.
  - intros g e Hg He.
    destruct (Permitted_one_fails sched r start goal guards g e Hr Hg He)
      as (g' & e' & Hg' & He' & Hres).
    split.
    + exists g', e'. repeat split; try done. apply guard_failed_mentions.
    + intros Hsame. rewrite Hres, (Hsame g' e' Hg' He').
      split; [reflexivity | apply guard_failed_mentions].
Qed.

(** C2 at an entry of two passing guards, the second arriving first. *)
Lemma Permitted_guards_outcome_witness :
  AddRule (T "a" "b") [always_pass; always_pass] ∅ !! T (ID (NewState "a")) (ID (NewState "b"))
  = Some [always_pass; always_pass]
  ∧ ((∀ g, g ∈ [always_pass; always_pass] → g (NewState "a") (NewState "b") = Done None) →
     Permitted [1; 0] (AddRule (T "a" "b") [always_pass; always_pass] ∅)
       (NewState "a") (NewState "b")
     = Return None).
Proof.
  split; [reflexivity|].
  apply (Permitted_guards_outcome [1; 0]
           (AddRule (T "a" "b") [always_pass; always_pass] ∅)
           (NewState "a") (NewState "b") [always_pass; always_pass]).
  reflexivity.
Defined.

(** C3. With no entry for the key made of the identities of [start] and
    [goal], [Permitted(start, goal)] returns the no-rules error, whose
    message names both identities and which is not a guard-failure error,
    and it starts no goroutine: no guard is called. *)
Theorem Permitted_no_entry (sched : list nat) (r : Ruleset) (start goal : State) :
  r !! T (ID start) (ID goal) = None →
  Permitted sched r start goal = Return (Some (NoRulesError start goal))
  ∧ launched (Permitted_run sched r start goal) = []
  ∧ Error (NoRulesError start goal)
    = "No rules found for " +:+ ID start +:+ " to " +:+ ID goal
  ∧ Fmt.Contains (Error (NoRulesError start goal)) (ID start)
  ∧ Fmt.Contains (Error (NoRulesError start goal)) (ID goal)
  ∧ is_no_rules (NoRulesError start goal)
  ∧ ¬ is_guard_failure (NoRulesError start goal).
Proof.
  intros Hr. repeat split.
  - by apply Permitted_absent.
  - by rewrite Permitted_run_absent.
  - unfold NoRulesError, Errorf; cbn [Error]. apply Sprintf_no_rules.
  - apply no_rules_mentions.
  - apply no_rules_mentions.
  - by exists start, goal.
  - apply no_rules_not_guard_failure.
Qed.

(** C3 at the pair (done, idle) of the two-rule ruleset. *)
Lemma Permitted_no_entry_witness :
  CreateRuleset [T "idle" "running"; T "running" "done"]
    !! T (ID (NewState "done")) (ID (NewState "idle")) = None
  ∧ Permitted [] (CreateRuleset [T "idle" "running"; T "running" "done"])
      (NewState "done") (NewState "idle")
    = Return (Some (NoRulesError (NewState "done") (NewState "idle"))).
Proof.
  split; [reflexivity|].
  apply (Permitted_no_entry []
           (CreateRuleset [T "idle" "running"; T "running" "done"])
           (NewState "done") (NewState "idle")).
  reflexivity.
Defined.

(** C4, as stated, fails.  With [T{idle, running}] registered by
    [AddTransition] in an empty ruleset, [Permitted(paused, running)]
    returns the no-rules error, which is not a guard-failure error: the
    lookup key is [T{paused, running}] and the default guard is never
    reached.  And for a transition of another implementation with the same
    origin and exit, [Permitted(idle, running)] does not return nil. *)
Lemma AddTransition_other_start_counterexample :
  NewState "paused" ≠ Origin (T "idle" "running")
  ∧ Permitted [] (AddTransition (T "idle" "running") ∅)
      (NewState "paused") (Exit (T "idle" "running"))
    = Return (Some (NoRulesError (NewState "paused") (NewState "running")))
  ∧ ¬ (∃ e, Permitted [] (AddTransition (T "idle" "running") ∅)
              (NewState "paused") (Exit (T "idle" "running"))
            = Return (Some e)
            ∧ is_guard_failure e)
  ∧ Permitted []
      (AddTransition (Custom "Edge" "1" (NewState "idle") (NewState "running")) ∅)
      (Origin (Custom "Edge" "1" (NewState "idle") (NewState "running")))
      (Exit (Custom "Edge" "1" (NewState "idle") (NewState "running")))
    ≠ Return None.
Proof.
  assert (Hrun : Permitted [] (AddTransition (T "idle" "running") ∅)
                   (NewState "paused") (Exit (T "idle" "running"))
                 = Return (Some (NoRulesError (NewState "paused") (NewState "running")))).
  { apply Permitted_absent. cbn [Exit ID].
    rewrite AddTransition_lookup_ne by discriminate. apply lookup_empty. }
  split; [discriminate|]. split; [exact Hrun|]. split.
  - intros (e & He & Hfail). rewrite Hrun in He. injection He as <-.
    by apply no_rules_not_guard_failure in Hfail.
  - rewrite Permitted_absent; [discriminate|]. cbn [Origin Exit ID].
    rewrite AddTransition_lookup_ne by discriminate. apply lookup_empty.
Qed.

(** C4, amended.  For a transition [T{o, e}] registered by [AddTransition]
    in a ruleset with no other guard for it, [Permitted(State(o),
    State(e))] returns nil.  For [x] other than [o], [Permitted(State(x),
    State(e))] does not read the entry of [T{o, e}]: its run is the one on
    the ruleset before the registration, and when that ruleset has no
    entry for [T{x, e}] it is the no-rules error, not a guard-failure
    error, with no guard started. *)
Theorem AddTransition_permits_its_pair (sched : list nat) (r : Ruleset)
    (o e : string) :
  r !! T o e = None →
  Permitted sched (AddTransition (T o e) r) (NewState o) (NewState e) = Return None
  ∧ (∀ x, x ≠ o →
       Permitted_run sched (AddTransition (T o e) r) (NewState x) (NewState e)
       = Permitted_run sched r (NewState x) (NewState e))
  ∧ (∀ x, x ≠ o → r !! T x e = None →
       Permitted_run sched (AddTransition (T o e) r) (NewState x) (NewState e)
       = {| launched := [];
            outcome := Return (Some (NoRulesError (NewState x) (NewState e))) |}
       ∧ ¬ is_guard_failure (NoRulesError (NewState x) (NewState e))).
Proof.
  intros Hr.
  assert (Hother : ∀ x, x ≠ o →
            AddTransition (T o e) r !! T (ID (NewState x)) (ID (NewState e))
            = r !! T (ID (NewState x)) (ID (NewState e))).
  { intros x Hx. apply AddTransition_lookup_ne. cbn [ID]. congruence. }
  split; [|split].
  - apply (Permitted_all_pass _ _ _ _ [default_guard (T o e)]).
    + cbn [ID]. rewrite AddTransition_lookup. unfold index. by rewrite Hr.
    + intros g Hg. apply list_elem_of_singleton in Hg as ->.
      by apply default_guard_passes.
  - intros x Hx. apply Permitted_run_ext. by apply Hother.
  - intros x Hx Hrx. split; [|apply no_rules_not_guard_failure].
    apply Permitted_run_absent. by rewrite Hother.
Qed.

(** C4, amended, at the rule (idle, running) in an empty ruleset. *)
Lemma AddTransition_permits_its_pair_witness :
  (∅ : Ruleset) !! T "idle" "running" = None
  ∧ Permitted [] (AddTransition (T "idle" "running") ∅)
      (NewState "idle") (NewState "running")
    = Return None.
Proof.
  split; [reflexivity|].
  apply (AddTransition_permits_its_pair [] ∅ "idle" "running"). reflexivity.
Defined.

(** C5. [AddTransition(t)] appends exactly one guard to the entry of [t]
    and touches no other entry; on [(start, goal)] that guard returns an
    error, the one formatted by [errTransitionFormat] from the two
    identities (not the value [ErrInvalidTransition]), if and only if the
    identity of [start] differs from that of [t.Origin()]; it returns nil
    for every [goal] when they are equal, whether or not [goal] is
    [t.Exit()]. *)
Theorem AddTransition_registers_origin_guard (t : Transition) (r : Ruleset) :
  AddTransition t r !! t = Some (index r t ++ [default_guard t])
  ∧ length (index (AddTransition t r) t) = S (length (index r t))
  ∧ (∀ t', t ≠ t' → AddTransition t r !! t' = r !! t')
  ∧ (∀ start goal,
       (∃ e, default_guard t start goal = Done (Some e))
       ↔ ID start ≠ ID (Origin t))
  ∧ (∀ start goal e,
       default_guard t start goal = Done (Some e) →
       e = Errorf errTransitionFormat [ID start; ID goal]
       ∧ Error e = "Cannot transition from " +:+ ID start +:+ " to " +:+ ID goal
       ∧ e ≠ ErrInvalidTransition)
  ∧ (∀ start goal,
       default_guard t start goal = Done None
       ↔ ID start = ID (Origin t)).
Proof.
  split; [apply AddTransition_lookup|].
  split.
  { unfold index at 1. rewrite AddTransition_lookup. cbn.
    rewrite length_app. cbn. lia. }
  split; [intros t'; apply AddTransition_lookup_ne|].
  split; [|split].
  - intros start goal. unfold default_guard.
    destruct (decide (ID start ≠ ID (Origin t))) as [Hne|Heq].
    + split; [auto | eauto].
    + split; [intros [e [=]] | intros Hne; by destruct Heq].
  - intros start goal e. unfold default_guard.
    destruct (decide (ID start ≠ ID (Origin t))) as [Hne|Heq]; [|discriminate].
    intros [= <-]. split; [reflexivity|].
    unfold Errorf; cbn [Error]. rewrite Sprintf_transition.
    split; [reflexivity | discriminate].
  - intros start goal. unfold default_guard.
    destruct (decide (ID start ≠ ID (Origin t))) as [Hne|Heq].
    + split; [discriminate | intros Heq; by destruct Hne].
    + split; [intros _; by apply dec_stable | reflexivity].
Qed.

(** C6. The machine over [CreateRuleset(T{idle, running}, T{running,
    done})] started at [idle]: [Transition(running)] returns nil and the
    state is [running]; then [Transition(done)] returns nil and the state
    is [done]; then [Transition(idle)] returns the no-rules error for
    [done] to [idle] and the state is still [done]. *)
Theorem idle_running_done_scenario (s1 s2 s3 : list nat) :
  let rules := CreateRuleset [T "idle" "running"; T "running" "done"] in
  let m0 := New [set_Rules rules; set_State (NewState "idle")] in
  let m1 := {| Rules := Some rules; Current := NewState "running" |} in
  let m2 := {| Rules := Some rules; Current := NewState "done" |} in
  Current m0 = NewState "idle"
  ∧ Machine_Transition s1 (NewState "running") m0 = Return (None, m1)
  ∧ Machine_Transition s2 (NewState "done") m1 = Return (None, m2)
  ∧ Machine_Transition s3 (NewState "idle") m2
    = Return (Some (NoRulesError (NewState "done") (NewState "idle")), m2)
  ∧ Error (NoRulesError (NewState "done") (NewState "idle"))
    = "No rules found for done to idle"
  ∧ ¬ is_guard_failure (NoRulesError (NewState "done") (NewState "idle")).
Proof.
  intros rules m0 m1 m2.
  assert (Hin1 : T "idle" "running" ∈ [T "idle" "running"; T "running" "done"])
    by (left).
  assert (Hin2 : T "running" "done" ∈ [T "idle" "running"; T "running" "done"])
    by (right; left).
  assert (Hout : T "done" "idle" ∉ [T "idle" "running"; T "running" "done"]).
  { intros H. apply elem_of_cons in H as [H|H]; [discriminate H|].
    apply elem_of_cons in H as [H|H]; [discriminate H|].
    by apply elem_of_nil in H. }
  split; [reflexivity|]. split; [|split; [|split; [|split]]].
  - rewrite (Machine_Transition_unfold s1 _ m0 rules eq_refl).
    unfold rules at 1. rewrite Permitted_CreateRuleset.
    cbn [ID Current m0 New foldl zero_Machine]. by rewrite decide_True.
  - rewrite (Machine_Transition_unfold s2 _ m1 rules eq_refl).
    unfold rules at 1. rewrite Permitted_CreateRuleset.
    cbn [ID Current m1]. by rewrite decide_True.
  - rewrite (Machine_Transition_unfold s3 _ m2 rules eq_refl).
    unfold rules at 1. rewrite Permitted_CreateRuleset.
    cbn [ID Current m2]. by rewrite decide_False.
  - reflexivity.
  - apply no_rules_not_guard_failure.
Qed.

(** C7. When [Permitted(start, goal)] finds an entry [guards] ([N] guards),
    it starts the [N] goroutines [go g(start, goal)], one per guard, and
    collects their results from the channel.  The caller and the
    goroutines move by the steps of [Interleaving.step], and:
    - launching never waits for a goroutine already started: the caller in
      the first loop can always launch the next guard, whatever the others
      do, so that the [N] goroutines are all running at once while the
      caller enters the second loop with [N] receives to go;
    - each goroutine started is the call of the guard at its position on
      the same [(start, goal)], all [N] exist once the first loop is over,
      and a goroutine whose guard returns can finish its call at any
      time, whatever the caller and the other goroutines do;
    - the caller in the second loop takes a nil result from any goroutine
      that offers one and goes on with one iteration less, returns nil
      when none is left, does not move while no goroutine offers a
      result, and has received one result per iteration done;
    - when it receives an error it is back from [Permitted] in that very
      step with the guard-failure error, whatever the number of iterations
      left and the state of the other goroutines: between 1 and [N]
      results have then been received, so up to [N - 1] goroutines are not
      awaited;
    - once the caller is back, with a result that [Permitted] returns
      under some schedule, a goroutine whose guard returns still runs it
      to its end, the result of the call never changes, and a goroutine
      blocked on its send stays so for ever: its result is never received;
    - no step stops a running goroutine (no cancellation), and a caller
      waiting on goroutines all over or hanging has no step at all (no
      timeout);
    - there is no other step than these, and the ends of the
      interleavings are exactly the ends of [Permitted] under the
      schedules: every order of arrival is the result of an interleaving,
      and conversely. *)
Theorem Permitted_goroutines (r : Ruleset) (start goal : State)
    (guards : list Guard) (c : Interleaving.Config) :
  r !! T (ID start) (ID goal) = Some guards →
  Interleaving.reachable guards start goal c →
  (∀ sched, launched (Permitted_run sched r start goal)
            = (λ g, go g start goal) <$> guards)
  ∧ (∀ i call, Interleaving.pool c !! i = Some (Interleaving.Running call) →
               ∃ g, guards !! i = Some g ∧ call = go g start goal)
  ∧ (∀ i v, Interleaving.pool c !! i = Some (Interleaving.Sending v) →
            ∃ g, guards !! i = Some g ∧ g start goal = Done v)
  ∧ ((∀ rest, Interleaving.caller c ≠ Interleaving.Launching rest) →
     length (Interleaving.pool c) = length guards)
  ∧ (∀ n c', Interleaving.caller c = Interleaving.Receiving (S n) →
             (∀ i v, Interleaving.pool c !! i ≠ Some (Interleaving.Sending v)) →
             Interleaving.step guards start goal c c' →
             Interleaving.caller c' = Interleaving.Receiving (S n))
  ∧ (∀ n, Interleaving.caller c = Interleaving.Receiving n →
          Interleaving.received (Interleaving.pool c) + n = length guards)
  ∧ (∀ n i err,
       Interleaving.caller c = Interleaving.Receiving (S n) →
       Interleaving.pool c !! i = Some (Interleaving.Sending (Some err)) →
       Interleaving.step guards start goal c
         {| Interleaving.caller :=
              Interleaving.Returned (Some (GuardFailedError start goal (Error err)));
            Interleaving.pool := <[i := Interleaving.Exited]> (Interleaving.pool c) |})
  ∧ (∀ e, Interleaving.caller c = Interleaving.Returned (Some e) →
          1 ≤ Interleaving.received (Interleaving.pool c) ≤ length guards)
  ∧ (∀ v, Interleaving.caller c = Interleaving.Returned v →
       (∃ sched, Permitted sched r start goal = Return v)
       ∧ (∀ i call w,
            Interleaving.pool c !! i = Some (Interleaving.Running call) →
            run call = Done w →
            Interleaving.step guards start goal c
              {| Interleaving.caller := Interleaving.Returned v;
                 Interleaving.pool :=
                   <[i := Interleaving.Sending w]> (Interleaving.pool c) |})
       ∧ (∀ c', rtc (Interleaving.step guards start goal) c c' →
                Interleaving.caller c' = Interleaving.Returned v
                ∧ ∀ i w, Interleaving.pool c !! i = Some (Interleaving.Sending w) →
                         Interleaving.pool c' !! i = Some (Interleaving.Sending w)))
  ∧ (∀ c' i call,
       Interleaving.step guards start goal c c' →
       Interleaving.pool c !! i = Some (Interleaving.Running call) →
       Interleaving.pool c' !! i = Some (Interleaving.Running call)
       ∨ ∃ w, run call = Done w
              ∧ Interleaving.pool c' !! i = Some (Interleaving.Sending w))
  ∧ (∀ n c', Interleaving.caller c = Interleaving.Receiving (S n) →
             (∀ i gr, Interleaving.pool c !! i = Some gr →
                      Interleaving.pending gr = None) →
             ¬ Interleaving.step guards start goal c c')
  ∧ (∀ g rest,
       Interleaving.caller c = Interleaving.Launching (g :: rest) →
       Interleaving.step guards start goal c
         {| Interleaving.caller := Interleaving.Launching rest;
            Interleaving.pool :=
              Interleaving.pool c ++ [Interleaving.Running (go g start goal)] |})
  ∧ (Interleaving.caller c = Interleaving.Launching [] →
     Interleaving.step guards start goal c
       {| Interleaving.caller := Interleaving.Receiving (length guards);
          Interleaving.pool := Interleaving.pool c |})
  ∧ Interleaving.reachable guards start goal
      {| Interleaving.caller := Interleaving.Receiving (length guards);
         Interleaving.pool :=
           Interleaving.Running <$> ((λ g, go g start goal) <$> guards) |}
  ∧ (∀ i call w,
       Interleaving.pool c !! i = Some (Interleaving.Running call) →
       run call = Done w →
       Interleaving.step guards start goal c
         {| Interleaving.caller := Interleaving.caller c;
            Interleaving.pool :=
              <[i := Interleaving.Sending w]> (Interleaving.pool c) |})
  ∧ (∀ n i,
       Interleaving.caller c = Interleaving.Receiving (S n) →
       Interleaving.pool c !! i = Some (Interleaving.Sending None) →
       Interleaving.step guards start goal c
         {| Interleaving.caller := Interleaving.Receiving n;
            Interleaving.pool := <[i := Interleaving.Exited]> (Interleaving.pool c) |})
  ∧ (Interleaving.caller c = Interleaving.Receiving 0 →
     Interleaving.step guards start goal c
       {| Interleaving.caller := Interleaving.Returned None;
          Interleaving.pool := Interleaving.pool c |})
  ∧ (∀ c', Interleaving.step guards start goal c c' →
       (∃ g rest,
          Interleaving.caller c = Interleaving.Launching (g :: rest)
          ∧ c' = {| Interleaving.caller := Interleaving.Launching rest;
                    Interleaving.pool :=
                      Interleaving.pool c
                      ++ [Interleaving.Running (go g start goal)] |})
       ∨ (Interleaving.caller c = Interleaving.Launching []
          ∧ c' = {| Interleaving.caller := Interleaving.Receiving (length guards);
                    Interleaving.pool := Interleaving.pool c |})
       ∨ (∃ i call w,
            Interleaving.pool c !! i = Some (Interleaving.Running call)
            ∧ run call = Done w
            ∧ c' = {| Interleaving.caller := Interleaving.caller c;
                      Interleaving.pool :=
                        <[i := Interleaving.Sending w]> (Interleaving.pool c) |})
       ∨ (∃ n i,
            Interleaving.caller c = Interleaving.Receiving (S n)
            ∧ Interleaving.pool c !! i = Some (Interleaving.Sending None)
            ∧ c' = {| Interleaving.caller := Interleaving.Receiving n;
                      Interleaving.pool :=
                        <[i := Interleaving.Exited]> (Interleaving.pool c) |})
       ∨ (∃ n i err,
            Interleaving.caller c = Interleaving.Receiving (S n)
            ∧ Interleaving.pool c !! i = Some (Interleaving.Sending (Some err))
            ∧ c' = {| Interleaving.caller :=
                        Interleaving.Returned
                          (Some (GuardFailedError start goal (Error err)));
                      Interleaving.pool :=
                        <[i := Interleaving.Exited]> (Interleaving.pool c) |})
       ∨ (Interleaving.caller c = Interleaving.Receiving 0
          ∧ c' = {| Interleaving.caller := Interleaving.Returned None;
                    Interleaving.pool := Interleaving.pool c |}))
  ∧ (∀ o, (∃ sched, Permitted sched r start goal = o)
          ↔ (∃ c', Interleaving.reachable guards start goal c'
                   ∧ Interleaving.ends guards start goal c' o)).
Proof.
  intros Hr Hc.
  destruct (reachable_tracks _ _ _ _ Hc) as (gs & Hgs & Hprefix & Hall).
  pose proof (invariant_reachable _ _ _ _ Hc) as (gs' & Hgs' & Hcaller).
  repeat apply conj.
  - intros sched. by rewrite (Permitted_run_found _ _ _ _ guards Hr).
  - intros i call Hi.
    destruct (Forall2_lookup_r _ _ _ _ _ Hgs Hi) as (g & Hg & Htr). eauto.
  - intros i v Hi.
    destruct (Forall2_lookup_r _ _ _ _ _ Hgs Hi) as (g & Hg & Htr). eauto.
  - intros Hne. rewrite <- (Hall Hne). symmetry. by eapply Forall2_length.
  - intros n c' Hrecv Hnone Hstep. by eapply receiving_waits.
  - intros n Hrecv. rewrite Hrecv in Hcaller. by destruct Hcaller.
  - intros n i err Hrecv Hi. destruct c as [k p].
    cbn [Interleaving.caller Interleaving.pool] in *. subst k.
    by apply Interleaving.step_recv_err.
  - intros e Hret. split.
    + rewrite Hret in Hcaller. by destruct Hcaller.
    + rewrite <- Hall by (intros rest; congruence).
      rewrite (Forall2_length _ _ _ Hgs). apply received_le_length.
  - intros v Hret. split; [|split].
    + apply (Permitted_interleavings r start goal guards (Return v) Hr). eauto.
    + intros i call w Hi Hrun. destruct c as [k p].
      cbn [Interleaving.caller Interleaving.pool] in *. subst k.
      by eapply Interleaving.step_eval.
    + intros c' Hsteps. by eapply returned_steps.
  - intros c' i call Hstep Hi. by eapply step_keeps_running.
  - intros n c' Hrecv Hnone. by eapply receiving_stuck.
  - intros g rest Hlaunch. destruct c as [k p].
    cbn [Interleaving.caller Interleaving.pool] in *. subst k.
    apply Interleaving.step_go.
  - intros Hlaunch. destruct c as [k p].
    cbn [Interleaving.caller Interleaving.pool] in *. subst k.
    apply Interleaving.step_launched.
  - unfold Interleaving.reachable.
    etransitivity; [apply launch_all|].
    apply rtc_once, Interleaving.step_launched.
  - intros i call w Hi Hrun. destruct c as [k p].
    cbn [Interleaving.caller Interleaving.pool] in *.
    by eapply Interleaving.step_eval.
  - intros n i Hrecv Hi. destruct c as [k p].
    cbn [Interleaving.caller Interleaving.pool] in *. subst k.
    by apply Interleaving.step_recv_nil.
  - intros Hrecv. destruct c as [k p].
    cbn [Interleaving.caller Interleaving.pool] in *. subst k.
    apply Interleaving.step_done.
  - intros c' Hstep.
    destruct Hstep as [g rest p | p | k p i call w Hi Hrun | n p i Hi | n p i err Hi | p];
      cbn [Interleaving.caller Interleaving.pool].
    + left. by exists g, rest.
    + right; left. done.
    + right; right; left. by exists i, call, w.
    + right; right; right; left. by exists n, i.
    + right; right; right; right; left. by exists n, i, err.
    + right; right; right; right; right. done.
  - intros o. by apply Permitted_interleavings.
Qed.

(** C7 at a check of three guards, the first of which never returns: the
    caller has returned on the failure of the second while the goroutine
    of the third is still running; that goroutine goes on to its send,
    and the guard failure is what [Permitted] returns under some schedule. *)
Lemma Permitted_goroutines_witness :
  AddRule (T "a" "b") [never_returns; always_fail "closed"; always_pass] ∅
    !! T (ID (NewState "a")) (ID (NewState "b"))
  = Some [never_returns; always_fail "closed"; always_pass]
  ∧ Interleaving.reachable [never_returns; always_fail "closed"; always_pass]
      (NewState "a") (NewState "b")
      {| Interleaving.caller :=
           Interleaving.Returned
             (Some (GuardFailedError (NewState "a") (NewState "b") "closed"));
         Interleaving.pool :=
           [Interleaving.Running (go never_returns (NewState "a") (NewState "b"));
            Interleaving.Exited;
            Interleaving.Running (go always_pass (NewState "a") (NewState "b"))] |}
  ∧ (∃ sched,
       Permitted sched
         (AddRule (T "a" "b") [never_returns; always_fail "closed"; always_pass] ∅)
         (NewState "a") (NewState "b")
       = Return (Some (GuardFailedError (NewState "a") (NewState "b") "closed")))
  ∧ Interleaving.step [never_returns; always_fail "closed"; always_pass]
      (NewState "a") (NewState "b")
      {| Interleaving.caller :=
           Interleaving.Returned
             (Some (GuardFailedError (NewState "a") (NewState "b") "closed"));
         Interleaving.pool :=
           [Interleaving.Running (go never_returns (NewState "a") (NewState "b"));
            Interleaving.Exited;
            Interleaving.Running (go always_pass (NewState "a") (NewState "b"))] |}
      {| Interleaving.caller :=
           Interleaving.Returned
             (Some (GuardFailedError (NewState "a") (NewState "b") "closed"));
         Interleaving.pool :=
           [Interleaving.Running (go never_returns (NewState "a") (NewState "b"));
            Interleaving.Exited;
            Interleaving.Sending None] |}.
Proof.
  assert (Hreach :
    Interleaving.reachable [never_returns; always_fail "closed"; always_pass]
      (NewState "a") (NewState "b")
      {| Interleaving.caller :=
           Interleaving.Returned
             (Some (GuardFailedError (NewState "a") (NewState "b") "closed"));
         Interleaving.pool :=
           [Interleaving.Running (go never_returns (NewState "a") (NewState "b"));
            Interleaving.Exited;
            Interleaving.Running (go always_pass (NewState "a") (NewState "b"))] |}).
  { unfold Interleaving.reachable, Interleaving.initial.
    eapply rtc_l; [apply Interleaving.step_go|].
    eapply rtc_l; [apply Interleaving.step_go|].
    eapply rtc_l; [apply Interleaving.step_go|].
    eapply rtc_l; [apply Interleaving.step_launched|].
    eapply rtc_l;
      [apply (Interleaving.step_eval _ _ _ _ _ 1
                (go (always_fail "closed") (NewState "a") (NewState "b"))
                (Some (errorString "closed"))); reflexivity|].
    eapply rtc_l;
      [apply (Interleaving.step_recv_err _ _ _ _ _ 1 (errorString "closed"));
       reflexivity|].
    apply rtc_refl. }
  assert (Hr : AddRule (T "a" "b") [never_returns; always_fail "closed"; always_pass] ∅
                 !! T (ID (NewState "a")) (ID (NewState "b"))
               = Some [never_returns; always_fail "closed"; always_pass])
    by reflexivity.
  split; [exact Hr|]. split; [exact Hreach|].
  destruct (Permitted_goroutines
              (AddRule (T "a" "b") [never_returns; always_fail "closed"; always_pass] ∅)
              (NewState "a") (NewState "b")
              [never_returns; always_fail "closed"; always_pass] _ Hr Hreach)
    as (_ & _ & _ & _ & _ & _ & _ & _ & Hafter & _).
  destruct (Hafter (Some (GuardFailedError (NewState "a") (NewState "b") "closed"))
              eq_refl) as (Hsched & Hstep & _).
  split; [exact Hsched|].
  apply (Hstep 2 (go always_pass (NewState "a") (NewState "b")) None);
    reflexivity.
Defined.

(** C8. [Permitted] looks up the struct [T{start.ID(), goal.ID()}] only.
    Registering guards under a key of another dynamic type, whatever its
    value, origin and exit, changes no run of [Permitted]; when the ruleset has
    the rule for [(start, goal)] under such a key only, [Permitted(start,
    goal)] returns the no-rules error and starts none of the guards. *)
Theorem Permitted_misses_custom_keys (sched : list nat) (r : Ruleset)
    (dyn_type value : string) (origin exit : State) (guards : list Guard)
    (start goal : State) :
  AddRule (Custom dyn_type value origin exit) guards r !! T (ID start) (ID goal)
  = r !! T (ID start) (ID goal)
  ∧ Permitted_run sched (AddRule (Custom dyn_type value origin exit) guards r) start goal
    = Permitted_run sched r start goal
  ∧ (r !! T (ID start) (ID goal) = None →
     Permitted_run sched (AddRule (Custom dyn_type value start goal) guards r) start goal
     = {| launched := [];
          outcome := Return (Some (NoRulesError start goal)) |}).
Proof.
  assert (Hkey : ∀ o e, AddRule (Custom dyn_type value o e) guards r !! T (ID start) (ID goal)
                 = r !! T (ID start) (ID goal))
    by (intros o e; by apply AddRule_lookup_ne).
  split; [apply Hkey|]. split.
  - apply Permitted_run_ext, Hkey.
  - intros Hr. apply Permitted_run_absent. by rewrite Hkey.
Qed.

(** C9. [AddRule(t)] with no guard leaves the ruleset as it was: it creates
    no entry, so a transition registered by such a call alone is still
    rejected with the no-rules error, no guard being started. *)
Theorem AddRule_without_guards (sched : list nat) (t : Transition) (r : Ruleset) :
  AddRule t [] r = r
  ∧ AddRule t [] ∅ !! t = None
  ∧ (∀ start goal,
       Permitted_run sched (AddRule t [] ∅) start goal
       = {| launched := [];
            outcome := Return (Some (NoRulesError start goal)) |})
  ∧ (r !! T (ID (Origin t)) (ID (Exit t)) = None →
     Permitted_run sched (AddRule t [] r) (Origin t) (Exit t)
     = {| launched := [];
          outcome := Return (Some (NoRulesError (Origin t) (Exit t))) |}).
Proof.
  split; [reflexivity|]. split; [apply lookup_empty|]. split.
  - intros start goal. apply Permitted_run_absent. apply lookup_empty.
  - intros Hr. by apply Permitted_run_absent.
Qed.

(** C10. [New] with no option, or with options none of which sets [Rules],
    gives a machine whose [Rules] is nil, and [Transition] on it panics
    with a nil dereference instead of returning; with a non-nil [Rules],
    [Transition] never panics, and a rejection by [Permitted] comes back
    as the returned error, the machine unchanged. *)
Theorem New_nil_rules_panics :
  Rules (New []) = None
  ∧ (∀ sched goal, Machine_Transition sched goal (New []) = Panic nil_dereference)
  ∧ (∀ opts,
       Forall (λ opt, ∀ m, Rules (opt m) = Rules m) opts →
       Rules (New opts) = None
       ∧ ∀ sched goal,
           Machine_Transition sched goal (New opts) = Panic nil_dereference)
  ∧ (∀ m r sched goal,
       Rules m = Some r →
       (∀ msg, Machine_Transition sched goal m ≠ Panic msg)
       ∧ (∀ e, Permitted sched r (Current m) goal = Return (Some e) →
               Machine_Transition sched goal m = Return (Some e, m))).
Proof.
  assert (Hnil : ∀ m sched goal, Rules m = None →
                 Machine_Transition sched goal m = Panic nil_dereference).
  { intros m sched goal Hm. unfold Machine_Transition. by rewrite Hm. }
  split; [reflexivity|]. split; [intros; by apply Hnil|]. split.
  - intros opts Hopts.
    assert (Rules (New opts) = None) as HNew
      by (unfold New; by rewrite New_keeps_nil_rules).
    split; [done|]. intros. by apply Hnil.
  - intros m r sched goal Hr.
    rewrite (Machine_Transition_unfold sched goal m r Hr). split.
    + intros msg. unfold Permitted, Permitted_run.
      destruct (r !! T (ID (Current m)) (ID goal)) as [guards|]; cbn [outcome].
      * generalize (offers (spawn guards (Current m) goal)).
        generalize (length guards). intros n. revert sched.
        induction n as [|n IH]; intros sched ready; cbn [collect]; [discriminate|].
        destruct ready as [|v0 l]; [discriminate|].
        destruct (nth _ _ _); [discriminate | apply IH].
      * discriminate.
    + by intros e ->.
Qed.

(** * Further properties *)

(** ** What an end of the receive loop tells *)

Lemma Forall_nil_delete_inv (l : list (option error)) (i : nat) :
  l !! i = Some None → Forall (λ v, v = None) (delete i l) →
  Forall (λ v, v = None) l.
Proof.
  intros Hi Hdel. apply Forall_forall. intros [e|] Hv; [|done].
  assert (Hin : Some e ∈ delete i l)
    by (apply elem_of_delete_other; [done | congruence]).
  by apply (proj1 (Forall_forall _ _) Hdel) in Hin.
Qed.

(** The loop returns nil only after [n] nil values, returns an error only
    made from an offered error, waits for ever only short of values and
    with no error among them; it never panics. *)
Lemma collect_inv (sched : list nat) (n : nat) (ready : list (option error))
    (start goal : State) :
  match collect sched n ready start goal with
  | Return None =>
      n ≤ length ready ∧ (length ready ≤ n → Forall (λ v, v = None) ready)
  | Return (Some e) =>
      ∃ e', Some e' ∈ ready ∧ e = GuardFailedError start goal (Error e')
  | Block => length ready < n ∧ Forall (λ v, v = None) ready
  | Panic _ => False
  end.
Proof.
  revert sched ready. induction n as [|n IH]; intros sched ready; cbn [collect].
  - split; [lia|]. intros Hlen. destruct ready; [constructor | cbn in Hlen; lia].
  - destruct ready as [|v0 l]; [split; [cbn; lia | constructor]|].
    pose proof (scheduled_index_lt sched v0 l) as Hlt.
    set (i := hd 0 sched `mod` length (v0 :: l)) in *.
    destruct (lookup_lt_is_Some_2 (v0 :: l) i Hlt) as [v Hv].
    rewrite nth_lookup, Hv. cbn [default].
    destruct v as [err|].
    + exists err. split; [|done]. apply list_elem_of_lookup. eauto.
    + specialize (IH (tl sched) (delete i (v0 :: l))).
      assert (Hlen : length (delete i (v0 :: l)) = length l).
      { rewrite length_delete by eauto. cbn [length]. lia. }
      destruct (collect (tl sched) n (delete i (v0 :: l)) start goal)
        as [[e|]| |msg]; [| | |done].
      * destruct IH as (e' & He' & ->). exists e'.
        split; [by eapply elem_of_delete_inv | done].
      * destruct IH as [Hn Hall]. rewrite Hlen in Hn, Hall. cbn [length].
        split; [lia|]. intros Hle.
        apply (Forall_nil_delete_inv _ i Hv). apply Hall. lia.
      * destruct IH as [Hn Hall]. rewrite Hlen in Hn. cbn [length].
        split; [lia|]. by apply (Forall_nil_delete_inv _ i Hv).
Qed.

(** Fewer values offered than guards: some guard hangs. *)
Lemma offers_short_hang (guards : list Guard) (start goal : State) :
  length (offers (spawn guards start goal)) < length guards →
  ∃ g, g ∈ guards ∧ g start goal = Hang.
Proof.
  unfold offers, spawn, run. induction guards as [|g guards IH]; cbn; [lia|].
  destruct (g start goal) as [v|] eqn:Hg; cbn.
  - intros Hlt. destruct IH as (g' & Hg' & Hhang); [lia|].
    exists g'. split; [by right | done].
  - intros _. exists g. split; [by left | done].
Qed.

(** The same for [Permitted], in terms of the guards of the entry. *)
Lemma Permitted_inv (sched : list nat) (r : Ruleset) (start goal : State) :
  match Permitted sched r start goal with
  | Return None =>
      ∃ guards, r !! T (ID start) (ID goal) = Some guards
                ∧ ∀ g, g ∈ guards → g start goal = Done None
  | Return (Some e) =>
      (r !! T (ID start) (ID goal) = None ∧ e = NoRulesError start goal)
      ∨ (∃ guards g e',
           r !! T (ID start) (ID goal) = Some guards ∧ g ∈ guards
           ∧ g start goal = Done (Some e')
           ∧ e = GuardFailedError start goal (Error e'))
  | Block =>
      ∃ guards, r !! T (ID start) (ID goal) = Some guards
                ∧ (∃ g, g ∈ guards ∧ g start goal = Hang)
                ∧ ∀ g e, g ∈ guards → g start goal ≠ Done (Some e)
  | Panic _ => False
  end.
Proof.
  destruct (r !! T (ID start) (ID goal)) as [guards|] eqn:Hr.
  - rewrite (Permitted_found _ _ _ _ guards Hr).
    pose proof (collect_inv sched (length guards)
                  (offers (spawn guards start goal)) start goal) as Hinv.
    pose proof (length_offers_spawn guards start goal) as Hle.
    assert (Hnofail : Forall (λ v, v = None) (offers (spawn guards start goal)) →
                      ∀ g e, g ∈ guards → g start goal ≠ Done (Some e)).
    { intros Hall g e Hg Hdone.
      assert (Hin : Some e ∈ offers (spawn guards start goal))
        by (apply elem_of_offers_spawn; eauto).
      by apply (proj1 (Forall_forall _ _) Hall) in Hin. }
    destruct (collect _ _ _ _ _) as [[e|]| |msg]; [| | |done].
    + destruct Hinv as (e' & He' & ->). right.
      apply elem_of_offers_spawn in He' as (g & Hg & Hdone).
      exists guards, g, e'. done.
    + destruct Hinv as [Hn Hall]. specialize (Hall Hle).
      exists guards. split; [done|]. intros g Hg.
      destruct (g start goal) as [[e|]|] eqn:Hdone; [| done |].
      * by destruct (Hnofail Hall g e Hg).
      * pose proof (length_offers_spawn_hang guards start goal g Hg Hdone). lia.
    + destruct Hinv as [Hn Hall]. exists guards. split; [done|].
      split; [|by apply Hnofail].
      by apply offers_short_hang.
  - rewrite Permitted_absent by done. by left.
Qed.

Lemma no_rules_is_not_guard_failed (start goal start' goal' : State) (reason : string) :
  NoRulesError start goal ≠ GuardFailedError start' goal' reason.
Proof.
  intros Heq. apply (no_rules_not_guard_failure start goal).
  by exists start', goal', reason.
Qed.

(** The kind of end of [Permitted] is fixed by the set of guards of the
    entry: it carries over to any schedule and to any ruleset whose entry
    for the pair has the same guards, in any order and number. *)
Lemma Permitted_transfer (s1 s2 : list nat) (r1 r2 : Ruleset) (start goal : State) :
  (∀ guards1, r1 !! T (ID start) (ID goal) = Some guards1 →
     ∃ guards2, r2 !! T (ID start) (ID goal) = Some guards2
                ∧ ∀ g, g ∈ guards1 ↔ g ∈ guards2) →
  (r1 !! T (ID start) (ID goal) = None → r2 !! T (ID start) (ID goal) = None) →
  match Permitted s1 r1 start goal with
  | Return None => Permitted s2 r2 start goal = Return None
  | Return (Some e) =>
      ∃ e', Permitted s2 r2 start goal = Return (Some e')
            ∧ (e = NoRulesError start goal → e' = NoRulesError start goal)
            ∧ (is_guard_failure e → is_guard_failure e')
  | Block => Permitted s2 r2 start goal = Block
  | Panic _ => False
  end.
Proof.
  intros Hsome Hnone.
  pose proof (Permitted_inv s1 r1 start goal) as Hinv.
  destruct (Permitted s1 r1 start goal) as [[e|]| |msg]; [| | |done].
  - destruct Hinv as [[Hr ->]|(guards1 & g & e' & Hr & Hg & Hdone & ->)].
    + exists (NoRulesError start goal). split; [|split; [done|]].
      * apply Permitted_absent. by apply Hnone.
      * intros Hfail. destruct (no_rules_not_guard_failure _ _ Hfail).
    + destruct (Hsome guards1 Hr) as (guards2 & Hr2 & Hsame).
      destruct (Permitted_one_fails s2 r2 start goal guards2 g e' Hr2)
        as (g2 & e2 & Hg2 & Hdone2 & Hres); [by apply Hsame | done |].
      exists (GuardFailedError start goal (Error e2)). split; [done|]. split.
      * intros Heq. symmetry in Heq.
        destruct (no_rules_is_not_guard_failed _ _ _ _ _ Heq).
      * intros _. by exists start, goal, (Error e2).
  - destruct Hinv as (guards1 & Hr & Hpass).
    destruct (Hsome guards1 Hr) as (guards2 & Hr2 & Hsame).
    apply (Permitted_all_pass _ _ _ _ guards2 Hr2).
    intros g Hg. apply Hpass. by apply Hsame.
  - destruct Hinv as (guards1 & Hr & (g & Hg & Hhang) & Hnofail).
    destruct (Hsome guards1 Hr) as (guards2 & Hr2 & Hsame).
    apply (Permitted_waits_for_ever _ _ _ _ guards2 g Hr2); [by apply Hsame | done |].
    intros g' e Hg'. apply Hnofail. by apply Hsame.
Qed.

(** ** More on the permission check *)

(** X1. [Permitted(start, goal)] returns nil exactly when the ruleset has an
    entry for [T{start.ID(), goal.ID()}] and every guard of the entry
    returns nil on [(start, goal)]: a nil result means that each of the
    guards has run to its end and passed. *)
Theorem Permitted_nil_iff (sched : list nat) (r : Ruleset) (start goal : State) :
  Permitted sched r start goal = Return None
  ↔ ∃ guards, r !! T (ID start) (ID goal) = Some guards
              ∧ ∀ g, g ∈ guards → g start goal = Done None.
Proof.
  split.
  - intros Hres. pose proof (Permitted_inv sched r start goal) as Hinv.
    by rewrite Hres in Hinv.
  - intros (guards & Hr & Hpass). by eapply Permitted_all_pass.
Qed.

(** X2. An error returned by [Permitted(start, goal)] is the no-rules error,
    exactly when there is no entry for the pair, or it is the guard-failure
    error made from the message of a guard of the entry that returned an
    error on [(start, goal)]; a guard failure is returned exactly when
    some guard of the entry fails. *)
Theorem Permitted_error_cause (sched : list nat) (r : Ruleset) (start goal : State) :
  (∀ e, Permitted sched r start goal = Return (Some e) →
        (r !! T (ID start) (ID goal) = None ∧ e = NoRulesError start goal)
        ∨ (∃ guards g e',
             r !! T (ID start) (ID goal) = Some guards ∧ g ∈ guards
             ∧ g start goal = Done (Some e')
             ∧ e = GuardFailedError start goal (Error e')))
  ∧ (Permitted sched r start goal = Return (Some (NoRulesError start goal))
     ↔ r !! T (ID start) (ID goal) = None)
  ∧ ((∃ e, Permitted sched r start goal = Return (Some e) ∧ is_guard_failure e)
     ↔ ∃ guards g e', r !! T (ID start) (ID goal) = Some guards
                      ∧ g ∈ guards ∧ g start goal = Done (Some e')).
Proof.
  pose proof (Permitted_inv sched r start goal) as Hinv.
  split; [|split].
  - intros e Hres. by rewrite Hres in Hinv.
  - split; [|apply Permitted_absent].
    intros Hres. rewrite Hres in Hinv.
    destruct Hinv as [[Hr _]|(guards & g & e' & _ & _ & _ & Heq)]; [done|].
    destruct (no_rules_is_not_guard_failed _ _ _ _ _ Heq).
  - split.
    + intros (e & Hres & Hfail). rewrite Hres in Hinv.
      destruct Hinv as [[_ ->]|(guards & g & e' & Hr & Hg & Hdone & _)].
      * destruct (no_rules_not_guard_failure _ _ Hfail).
      * exists guards, g, e'. done.
    + intros (guards & g & e' & Hr & Hg & Hdone).
      destruct (Permitted_one_fails sched r start goal guards g e' Hr Hg Hdone)
        as (g2 & e2 & _ & _ & Hres).
      eexists. split; [exact Hres|]. by exists start, goal, (Error e2).
Qed.

(** X3. [Permitted(start, goal)] never returns exactly when the entry for the
    pair has a guard that never returns on [(start, goal)] and no guard
    that returns an error: the receive loop has no timeout, and a failure
    is the only thing that ends it early. *)
Theorem Permitted_block_iff (sched : list nat) (r : Ruleset) (start goal : State) :
  Permitted sched r start goal = Block
  ↔ ∃ guards, r !! T (ID start) (ID goal) = Some guards
              ∧ (∃ g, g ∈ guards ∧ g start goal = Hang)
              ∧ ∀ g e, g ∈ guards → g start goal ≠ Done (Some e).
Proof.
  split.
  - intros Hres. pose proof (Permitted_inv sched r start goal) as Hinv.
    by rewrite Hres in Hinv.
  - intros (guards & Hr & (g & Hg & Hhang) & Hnofail).
    by eapply Permitted_waits_for_ever.
Qed.

(** X4. The order in which the results of the goroutines arrive changes
    neither whether [Permitted] returns nil, nor whether it returns the
    no-rules error, nor whether it returns a guard failure, nor whether it
    waits for ever: two schedules agree on each of the four. *)
Theorem Permitted_schedule_independent (s1 s2 : list nat) (r : Ruleset)
    (start goal : State) :
  (Permitted s1 r start goal = Return None
   ↔ Permitted s2 r start goal = Return None)
  ∧ (Permitted s1 r start goal = Block ↔ Permitted s2 r start goal = Block)
  ∧ (Permitted s1 r start goal = Return (Some (NoRulesError start goal))
     ↔ Permitted s2 r start goal = Return (Some (NoRulesError start goal)))
  ∧ ((∃ e, Permitted s1 r start goal = Return (Some e) ∧ is_guard_failure e)
     ↔ (∃ e, Permitted s2 r start goal = Return (Some e) ∧ is_guard_failure e)).
Proof.
  assert (Hdir : ∀ s s', 
    (Permitted s r start goal = Return None → Permitted s' r start goal = Return None)
    ∧ (Permitted s r start goal = Block → Permitted s' r start goal = Block)
    ∧ (Permitted s r start goal = Return (Some (NoRulesError start goal))
       → Permitted s' r start goal = Return (Some (NoRulesError start goal)))
    ∧ ((∃ e, Permitted s r start goal = Return (Some e) ∧ is_guard_failure e)
       → (∃ e, Permitted s' r start goal = Return (Some e) ∧ is_guard_failure e))).
  { intros s s'.
    pose proof (Permitted_transfer s s' r r start goal) as Htr.
    assert (Hkind : match Permitted s r start goal with
      | Return None => Permitted s' r start goal = Return None
      | Return (Some e) =>
          ∃ e', Permitted s' r start goal = Return (Some e')
                ∧ (e = NoRulesError start goal → e' = NoRulesError start goal)
                ∧ (is_guard_failure e → is_guard_failure e')
      | Block => Permitted s' r start goal = Block
      | Panic _ => False
      end) by (apply Htr; [intros guards1 Hr; by exists guards1 | done]).
    clear Htr. repeat apply conj.
    - intros Hres. by rewrite Hres in Hkind.
    - intros Hres. by rewrite Hres in Hkind.
    - intros Hres. rewrite Hres in Hkind.
      destruct Hkind as (e' & Hres' & Hnr & _). by rewrite Hres', Hnr.
    - intros (e & Hres & Hfail). rewrite Hres in Hkind.
      destruct Hkind as (e' & Hres' & _ & Hgf). eauto. }
  destruct (Hdir s1 s2) as (H1 & H2 & H3 & H4).
  destruct (Hdir s2 s1) as (H1' & H2' & H3' & H4').
  repeat split; assumption.
Qed.

(** X5. The kind of result of [Permitted(start, goal)] depends on the entry
    for the pair only through the set of its guards: two rulesets whose
    entries hold the same guards, registered in any order and any number
    of times, agree on nil, on waiting for ever and on guard failure. *)
Theorem Permitted_guard_order_irrelevant (s1 s2 : list nat) (r1 r2 : Ruleset)
    (start goal : State) (guards1 guards2 : list Guard) :
  r1 !! T (ID start) (ID goal) = Some guards1 →
  r2 !! T (ID start) (ID goal) = Some guards2 →
  (∀ g, g ∈ guards1 ↔ g ∈ guards2) →
  (Permitted s1 r1 start goal = Return None
   ↔ Permitted s2 r2 start goal = Return None)
  ∧ (Permitted s1 r1 start goal = Block ↔ Permitted s2 r2 start goal = Block)
  ∧ ((∃ e, Permitted s1 r1 start goal = Return (Some e) ∧ is_guard_failure e)
     ↔ (∃ e, Permitted s2 r2 start goal = Return (Some e) ∧ is_guard_failure e)).
Proof.
  intros Hr1 Hr2 Hsame.
  pose proof (Permitted_transfer s1 s2 r1 r2 start goal) as H12.
  pose proof (Permitted_transfer s2 s1 r2 r1 start goal) as H21.
  assert (K12 := H12 ltac:(intros gs Hgs; exists guards2; split;
                             [done | rewrite Hr1 in Hgs; by injection Hgs as <-])
                     ltac:(by rewrite Hr1)).
  assert (K21 := H21 ltac:(intros gs Hgs; exists guards1; split;
                             [done | rewrite Hr2 in Hgs; injection Hgs as <-;
                              intros g; symmetry; apply Hsame])
                     ltac:(by rewrite Hr2)).
  clear H12 H21. repeat apply conj.
  - intros Hres. by rewrite Hres in K12.
  - intros Hres. by rewrite Hres in K21.
  - intros Hres. by rewrite Hres in K12.
  - intros Hres. by rewrite Hres in K21.
  - intros (e & Hres & Hfail). rewrite Hres in K12.
    destruct K12 as (e' & Hres' & _ & Hgf). eauto.
  - intros (e & Hres & Hfail). rewrite Hres in K21.
    destruct K21 as (e' & Hres' & _ & Hgf). eauto.
Qed.

(** X5 at two guards against the same two, one of them twice, in another order. *)
Lemma Permitted_guard_order_irrelevant_witness :
  AddRule (T "a" "b") [always_pass; always_fail "closed"] ∅
    !! T (ID (NewState "a")) (ID (NewState "b"))
  = Some [always_pass; always_fail "closed"]
  ∧ AddRule (T "a" "b") [always_fail "closed"; always_pass; always_pass] ∅
      !! T (ID (NewState "a")) (ID (NewState "b"))
    = Some [always_fail "closed"; always_pass; always_pass]
  ∧ (∀ g, g ∈ [always_pass; always_fail "closed"]
          ↔ g ∈ [always_fail "closed"; always_pass; always_pass])
  ∧ (Permitted [0]
       (AddRule (T "a" "b") [always_pass; always_fail "closed"] ∅)
       (NewState "a") (NewState "b") = Return None
     ↔ Permitted [2; 1]
         (AddRule (T "a" "b") [always_fail "closed"; always_pass; always_pass] ∅)
         (NewState "a") (NewState "b") = Return None).
Proof.
  assert (Hsame : ∀ g, g ∈ [always_pass; always_fail "closed"]
                       ↔ g ∈ [always_fail "closed"; always_pass; always_pass]).
  { intros g. rewrite !elem_of_cons, !elem_of_nil. tauto. }
  split; [reflexivity|]. split; [reflexivity|]. split; [exact Hsame|].
  exact (proj1 (Permitted_guard_order_irrelevant [0] [2; 1]
                  (AddRule (T "a" "b") [always_pass; always_fail "closed"] ∅)
                  (AddRule (T "a" "b") [always_fail "closed"; always_pass; always_pass] ∅)
                  (NewState "a") (NewState "b")
                  [always_pass; always_fail "closed"]
                  [always_fail "closed"; always_pass; always_pass]
                  eq_refl eq_refl Hsame)).
Defined.

(** X6. Rules for other transitions do not count: registering guards, or
    a default rule, under any key other than [T{start.ID(), goal.ID()}]
    changes neither the result of [Permitted(start, goal)] nor the guards
    it starts. *)
Theorem Permitted_ignores_other_rules (sched : list nat) (r : Ruleset)
    (t : Transition) (guards : list Guard) (start goal : State) :
  t ≠ T (ID start) (ID goal) →
  Permitted_run sched (AddRule t guards r) start goal
  = Permitted_run sched r start goal
  ∧ Permitted_run sched (AddTransition t r) start goal
    = Permitted_run sched r start goal.
Proof.
  intros Hne. split; apply Permitted_run_ext.
  - by apply AddRule_lookup_ne.
  - by apply AddTransition_lookup_ne.
Qed.

(** X6 at a failing guard registered for the opposite direction. *)
Lemma Permitted_ignores_other_rules_witness :
  T "b" "a" ≠ T (ID (NewState "a")) (ID (NewState "b"))
  ∧ Permitted_run [] (AddRule (T "b" "a") [always_fail "closed"]
                        (AddTransition (T "a" "b") ∅))
      (NewState "a") (NewState "b")
    = Permitted_run [] (AddTransition (T "a" "b") ∅) (NewState "a") (NewState "b").
Proof.
  split; [discriminate|].
  apply (Permitted_ignores_other_rules [] (AddTransition (T "a" "b") ∅)
           (T "b" "a") [always_fail "closed"] (NewState "a") (NewState "b")).
  discriminate.
Defined.

(** X7. One more guard on a pair whose registered guards all pass: after
    [AddRule(T{start, goal}, g)], [Permitted(start, goal)] is decided by
    [g] alone, whatever the order of arrival: nil if [g] returns nil, the
    guard-failure error with the message of [g] if [g] returns an error,
    and no return if [g] never returns. *)
Theorem Permitted_with_one_more_guard (sched : list nat) (r : Ruleset)
    (start goal : State) (g : Guard) :
  (∀ g', g' ∈ index r (T (ID start) (ID goal)) → g' start goal = Done None) →
  Permitted sched (AddRule (T (ID start) (ID goal)) [g] r) start goal
  = match g start goal with
    | Done None => Return None
    | Done (Some err) => Return (Some (GuardFailedError start goal (Error err)))
    | Hang => Block
    end.
Proof.
  intros Hpass.
  assert (Hr : AddRule (T (ID start) (ID goal)) [g] r !! T (ID start) (ID goal)
               = Some (index r (T (ID start) (ID goal)) ++ [g]))
    by (by apply AddRule_lookup).
  destruct (g start goal) as [[err|]|] eqn:Hg.
  - destruct (Permitted_one_fails sched _ start goal _ g err Hr)
      as (g2 & e2 & Hg2 & Hdone2 & Hres); [set_solver | done |].
    rewrite Hres. apply elem_of_app in Hg2 as [Hold|Hnew].
    + rewrite (Hpass g2 Hold) in Hdone2. discriminate Hdone2.
    + apply list_elem_of_singleton in Hnew as ->.
      rewrite Hg in Hdone2. by injection Hdone2 as <-.
  - apply (Permitted_all_pass _ _ _ _ _ Hr). intros g' Hg'.
    apply elem_of_app in Hg' as [Hold|Hnew]; [by apply Hpass|].
    by apply list_elem_of_singleton in Hnew as ->.
  - apply (Permitted_waits_for_ever _ _ _ _ _ g Hr); [set_solver | done |].
    intros g' e Hg' Hdone. apply elem_of_app in Hg' as [Hold|Hnew].
    + rewrite (Hpass g' Hold) in Hdone. discriminate Hdone.
    + apply list_elem_of_singleton in Hnew as ->. congruence.
Qed.

(** X7 at a failing guard added to a default rule. *)
Lemma Permitted_with_one_more_guard_witness :
  (∀ g', g' ∈ index (AddTransition (T "idle" "running") ∅)
                (T (ID (NewState "idle")) (ID (NewState "running"))) →
         g' (NewState "idle") (NewState "running") = Done None)
  ∧ Permitted [1] (AddRule (T (ID (NewState "idle")) (ID (NewState "running")))
                     [always_fail "closed"]
                     (AddTransition (T "idle" "running") ∅))
      (NewState "idle") (NewState "running")
    = Return (Some (GuardFailedError (NewState "idle") (NewState "running") "closed")).
Proof.
  assert (Hpass : ∀ g', g' ∈ index (AddTransition (T "idle" "running") ∅)
                          (T (ID (NewState "idle")) (ID (NewState "running"))) →
                        g' (NewState "idle") (NewState "running") = Done None).
  { intros g' Hg'. cbn in Hg'. apply list_elem_of_singleton in Hg' as ->.
    reflexivity. }
  split; [exact Hpass|].
  exact (Permitted_with_one_more_guard [1] (AddTransition (T "idle" "running") ∅)
           (NewState "idle") (NewState "running") (always_fail "closed") Hpass).
Defined.

(** ** More on registration *)

(** X8. [AddRule(t, guards...)] keeps every guard already registered for [t]
    and appends the new ones after them in the order given, without
    removing duplicates; it touches no other entry; the entry of [t]
    exists afterwards exactly when it existed before or a guard was given;
    and one call with two batches is two calls with one batch each. *)
Theorem AddRule_appends (t : Transition) (guards more : list Guard) (r : Ruleset) :
  index (AddRule t guards r) t = index r t ++ guards
  ∧ (∀ k, t ≠ k → AddRule t guards r !! k = r !! k)
  ∧ (is_Some (AddRule t guards r !! t) ↔ is_Some (r !! t) ∨ guards ≠ [])
  ∧ AddRule t (guards ++ more) r = AddRule t more (AddRule t guards r).
Proof.
  split; [apply index_AddRule|].
  split; [intros k; apply AddRule_lookup_ne|].
  split.
  - destruct guards as [|g guards].
    + rewrite AddRule_nil. split; [auto | intros [?|?]; done].
    + rewrite AddRule_lookup by done. split; [intros _; by right | eauto].
  - unfold AddRule. apply foldl_app.
Qed.

(** X9. Registrations for two different transitions do not interfere: they
    can be made in either order. *)
Theorem AddRule_commutes (t1 t2 : Transition) (guards1 guards2 : list Guard)
    (r : Ruleset) :
  t1 ≠ t2 →
  AddRule t1 guards1 (AddRule t2 guards2 r)
  = AddRule t2 guards2 (AddRule t1 guards1 r).
Proof.
  intros Hne. apply map_eq. intros k.
  assert (Hidx : ∀ t t' gs r', t ≠ t' → index (AddRule t gs r') t' = index r' t').
  { intros t t' gs r' Htt. unfold index. by rewrite AddRule_lookup_ne. }
  destruct (decide (t1 = k)) as [<-|Hk1].
  - rewrite (AddRule_lookup_ne t2 t1) by done.
    destruct guards1 as [|g guards1].
    + rewrite !AddRule_nil. by rewrite AddRule_lookup_ne.
    + rewrite !AddRule_lookup by done. by rewrite Hidx.
  - rewrite (AddRule_lookup_ne t1 k) by done.
    destruct (decide (t2 = k)) as [<-|Hk2].
    + destruct guards2 as [|g guards2].
      * rewrite !AddRule_nil. by rewrite AddRule_lookup_ne.
      * rewrite !AddRule_lookup by done. by rewrite Hidx.
    + by rewrite !AddRule_lookup_ne.
Qed.

(** X9 at the two directions of one edge. *)
Lemma AddRule_commutes_witness :
  T "a" "b" ≠ T "b" "a"
  ∧ AddRule (T "a" "b") [always_pass] (AddRule (T "b" "a") [never_returns] ∅)
    = AddRule (T "b" "a") [never_returns] (AddRule (T "a" "b") [always_pass] ∅).
Proof.
  split; [discriminate|].
  apply (AddRule_commutes (T "a" "b") (T "b" "a") [always_pass] [never_returns] ∅).
  discriminate.
Defined.

Lemma occurrences_cons (k t : Transition) (ts : list Transition) :
  occurrences k (t :: ts)
  = (if decide (t = k) then 1 else 0) + occurrences k ts.
Proof. unfold occurrences. rewrite filter_cons. by destruct (decide (t = k)). Qed.

Lemma occurrences_pos (k : Transition) (ts : list Transition) :
  k ∈ ts ↔ 0 < occurrences k ts.
Proof.
  induction ts as [|t ts IH].
  - split; [intros H; by apply elem_of_nil in H | cbn; lia].
  - rewrite occurrences_cons, elem_of_cons, IH.
    destruct (decide (t = k)) as [->|Hne]; [split; [lia | auto]|].
    split; [intros [->|?]; [done | lia] | intros ?; right; lia].
Qed.

Lemma foldl_AddTransition_index (ts : list Transition) (r : Ruleset) (k : Transition) :
  index (foldl (λ r t, AddTransition t r) r ts) k
  = index r k ++ replicate (occurrences k ts) (default_guard k).
Proof.
  revert r. induction ts as [|t ts IH]; intros r; cbn [foldl].
  - cbn. by rewrite app_nil_r.
  - rewrite IH, occurrences_cons. destruct (decide (t = k)) as [->|Hne].
    + unfold index at 1. rewrite AddTransition_lookup. cbn.
      by rewrite <- app_assoc.
    + unfold index at 1. by rewrite AddTransition_lookup_ne.
Qed.

(** X10. [CreateRuleset(transitions...)] has an entry exactly for the
    transitions it is given, holding the default guard of the transition
    once per time the transition is listed, two transitions being the same
    key when their dynamic types and values are; so the ruleset does not
    depend on the order in which the transitions are listed. *)
Theorem CreateRuleset_lookup (ts : list Transition) (k : Transition) :
  CreateRuleset ts !! k
  = (if decide (k ∈ ts)
     then Some (replicate (occurrences k ts) (default_guard k))
     else None)
  ∧ ∀ ts', ts ≡ₚ ts' → CreateRuleset ts = CreateRuleset ts'.
Proof.
  assert (Hlookup : ∀ l k',
    CreateRuleset l !! k'
    = if decide (k' ∈ l)
      then Some (replicate (occurrences k' l) (default_guard k'))
      else None).
  { intros l k'. pose proof (CreateRuleset_is_Some l k') as Hdom.
    pose proof (foldl_AddTransition_index l ∅ k') as Hidx.
    fold (CreateRuleset l) in Hidx. unfold index in Hidx.
    rewrite lookup_empty in Hidx. cbn in Hidx.
    destruct (decide (k' ∈ l)) as [Hin|Hnin].
    - apply Hdom in Hin as [gs Hgs]. rewrite Hgs in Hidx |- *. cbn in Hidx.
      by rewrite Hidx.
    - destruct (CreateRuleset l !! k') as [gs|] eqn:Hgs; [|done].
      destruct Hnin. apply Hdom. eauto. }
  split; [apply Hlookup|].
  intros ts' Hperm. apply map_eq. intros k'. rewrite !Hlookup.
  assert (Hocc : occurrences k' ts = occurrences k' ts')
    by (unfold occurrences; by rewrite Hperm).
  rewrite Hocc.
  destruct (decide (k' ∈ ts)) as [Hin|Hnin];
    destruct (decide (k' ∈ ts')) as [Hin'|Hnin']; try done.
  - destruct Hnin'. by rewrite <- Hperm.
  - destruct Hnin. by rewrite Hperm.
Qed.

(** Two transitions of one other implementation with the same origin and
    exit but different values are two keys: each gets its own entry with
    its own default guard. *)
Example CreateRuleset_two_values_of_one_edge :
  CreateRuleset [Custom "TaggedEdge" "1" (NewState "a") (NewState "b");
                 Custom "TaggedEdge" "2" (NewState "a") (NewState "b")]
    !! Custom "TaggedEdge" "1" (NewState "a") (NewState "b")
  = Some [default_guard (Custom "TaggedEdge" "1" (NewState "a") (NewState "b"))]
  ∧ CreateRuleset [Custom "TaggedEdge" "1" (NewState "a") (NewState "b");
                   Custom "TaggedEdge" "2" (NewState "a") (NewState "b")]
      !! Custom "TaggedEdge" "2" (NewState "a") (NewState "b")
    = Some [default_guard (Custom "TaggedEdge" "2" (NewState "a") (NewState "b"))].
Proof. split; reflexivity. Qed.

(** X11. Registering a transition and asking for its own origin and exit:
    with no entry yet for the key [T{t.Origin().ID(), t.Exit().ID()}],
    [Permitted(t.Origin(), t.Exit())] after [AddTransition(t)] returns nil
    if and only if [t] is a value of the struct type [T]; for a transition
    of any other implementation it returns the no-rules error. *)
Theorem AddTransition_round_trip (sched : list nat) (t : Transition) (r : Ruleset) :
  r !! T (ID (Origin t)) (ID (Exit t)) = None →
  (Permitted sched (AddTransition t r) (Origin t) (Exit t) = Return None
   ↔ ∃ o e, t = T o e)
  ∧ ((∀ o e, t ≠ T o e) →
     Permitted sched (AddTransition t r) (Origin t) (Exit t)
     = Return (Some (NoRulesError (Origin t) (Exit t)))).
Proof.
  intros Hr.
  assert (Hcustom : (∀ o e, t ≠ T o e) →
            Permitted sched (AddTransition t r) (Origin t) (Exit t)
            = Return (Some (NoRulesError (Origin t) (Exit t)))).
  { intros Hne. apply Permitted_absent.
    rewrite AddTransition_lookup_ne; [done|]. intros Heq. by eapply Hne. }
  split; [|exact Hcustom]. split.
  - intros Hres. destruct t as [o e|ty v o e]; [eauto|].
    rewrite Hcustom in Hres; [discriminate Hres | discriminate].
  - intros (o & e & ->).
    apply (Permitted_all_pass _ _ _ _ [default_guard (T o e)]).
    + cbn [Origin Exit ID] in *. rewrite AddTransition_lookup.
      unfold index. by rewrite Hr.
    + intros g Hg. apply list_elem_of_singleton in Hg as ->.
      by apply default_guard_passes.
Qed.

(** X11 at a transition of another implementation. *)
Lemma AddTransition_round_trip_witness :
  (∅ : Ruleset) !! T (ID (Origin (Custom "Edge" "1" (NewState "idle") (NewState "running"))))
                     (ID (Exit (Custom "Edge" "1" (NewState "idle") (NewState "running"))))
  = None
  ∧ Permitted [] (AddTransition (Custom "Edge" "1" (NewState "idle") (NewState "running")) ∅)
      (NewState "idle") (NewState "running")
    = Return (Some (NoRulesError (NewState "idle") (NewState "running"))).
Proof.
  split; [reflexivity|].
  apply (AddTransition_round_trip []
           (Custom "Edge" "1" (NewState "idle") (NewState "running")) ∅).
  - reflexivity.
  - discriminate.
Defined.

(** ** More on the machine *)

(** X12. On a machine whose ruleset was built by [CreateRuleset(ts...)],
    [Transition(goal)] is the test of the edge from the current state to
    [goal]: if [T{current, goal}] is among [ts] the machine moves to
    [goal] and nil is returned; otherwise the machine stays and the
    no-rules error for the pair is returned.  It never waits, never
    panics, and never returns a guard failure. *)
Theorem Transition_over_CreateRuleset (sched : list nat) (ts : list Transition)
    (m : Machine) (goal : State) :
  Rules m = Some (CreateRuleset ts) →
  Machine_Transition sched goal m
  = if decide (T (ID (Current m)) (ID goal) ∈ ts)
    then Return (None, {| Rules := Rules m; Current := goal |})
    else Return (Some (NoRulesError (Current m) goal), m).
Proof.
  intros Hr. rewrite (Machine_Transition_unfold sched goal m _ Hr).
  rewrite Permitted_CreateRuleset.
  by destruct (decide (T (ID (Current m)) (ID goal) ∈ ts)).
Qed.

(** X12 at a machine over one rule, asked to stay where it is. *)
Lemma Transition_over_CreateRuleset_witness :
  Rules (New [set_Rules (CreateRuleset [T "idle" "running"]);
              set_State (NewState "idle")])
  = Some (CreateRuleset [T "idle" "running"])
  ∧ Machine_Transition [] (NewState "idle")
      (New [set_Rules (CreateRuleset [T "idle" "running"]);
            set_State (NewState "idle")])
    = Return (Some (NoRulesError (NewState "idle") (NewState "idle")),
              New [set_Rules (CreateRuleset [T "idle" "running"]);
                   set_State (NewState "idle")]).
Proof.
  split; [reflexivity|].
  apply (Transition_over_CreateRuleset [] [T "idle" "running"]
           (New [set_Rules (CreateRuleset [T "idle" "running"]);
                 set_State (NewState "idle")])
           (NewState "idle")).
  reflexivity.
Defined.

(** X13. A rejected [Transition(goal)] leaves the machine as it was, and
    asking again, with the ruleset unchanged, is rejected again whatever
    the order in which the guards answer: with the same no-rules error if
    the pair has no rule, with a guard failure if a guard failed. *)
Theorem Transition_rejection_stable (s1 s2 : list nat) (m m' : Machine)
    (goal : State) (e : error) :
  Machine_Transition s1 goal m = Return (Some e, m') →
  m' = m
  ∧ ∃ e', Machine_Transition s2 goal m' = Return (Some e', m')
          ∧ (e = NoRulesError (Current m) goal → e' = e)
          ∧ (is_guard_failure e → is_guard_failure e').
Proof.
  intros Hres. destruct (Rules m) as [r|] eqn:Hr.
  - rewrite (Machine_Transition_unfold s1 goal m r Hr) in Hres.
    pose proof (Permitted_transfer s1 s2 r r (Current m) goal) as Htr.
    assert (Hkind := Htr ltac:(intros guards1 Hg; by exists guards1) ltac:(done)).
    clear Htr.
    destruct (Permitted s1 r (Current m) goal) as [[e0|]| |msg];
      try discriminate Hres.
    injection Hres as -> <-. split; [done|].
    destruct Hkind as (e' & Hres' & Hnr & Hgf).
    exists e'. rewrite (Machine_Transition_unfold s2 goal m r Hr), Hres'.
    split; [done|]. split; [|done]. intros Heq. by rewrite (Hnr Heq).
  - unfold Machine_Transition in Hres. rewrite Hr in Hres. discriminate Hres.
Qed.

(** X13 at a machine over one rule, asked twice for a state with no rule. *)
Lemma Transition_rejection_stable_witness :
  Machine_Transition [] (NewState "done")
    (set_State (NewState "idle")
       (set_Rules (CreateRuleset [T "idle" "running"]) zero_Machine))
  = Return (Some (NoRulesError (NewState "idle") (NewState "done")),
            set_State (NewState "idle")
              (set_Rules (CreateRuleset [T "idle" "running"]) zero_Machine))
  ∧ ∃ e', Machine_Transition [3]  (NewState "done")
            (set_State (NewState "idle")
               (set_Rules (CreateRuleset [T "idle" "running"]) zero_Machine))
          = Return (Some e',
                    set_State (NewState "idle")
                      (set_Rules (CreateRuleset [T "idle" "running"]) zero_Machine)).
Proof.
  assert (Hrej :
    Machine_Transition [] (NewState "done")
      (set_State (NewState "idle")
         (set_Rules (CreateRuleset [T "idle" "running"]) zero_Machine))
    = Return (Some (NoRulesError (NewState "idle") (NewState "done")),
              set_State (NewState "idle")
                (set_Rules (CreateRuleset [T "idle" "running"]) zero_Machine)))
    by reflexivity.
  split; [exact Hrej|].
  destruct (Transition_rejection_stable [] [3] _ _ _ _ Hrej)
    as (_ & e' & Hres & _).
  exists e'. exact Hres.
Defined.

(** ** The messages *)

(** X14. The messages of the package: the no-rules error reads
    [No rules found for S to G], the guard-failure error
    [Guard failed from S to G: reason] and the default guard's error
    [Cannot transition from S to G].  Whatever the identities and the
    reason, errors of two of these kinds are different, none is
    [ErrInvalidTransition], and the reason of a guard-failure error for a
    given pair can be read back from it. *)
Theorem error_messages (start goal start' goal' : State) (reason reason' : string) :
  Error (NoRulesError start goal)
  = "No rules found for " +:+ ID start +:+ " to " +:+ ID goal
  ∧ Error (GuardFailedError start goal reason)
    = "Guard failed from " +:+ ID start +:+ " to " +:+ ID goal +:+ ": " +:+ reason
  ∧ Error (Errorf errTransitionFormat [ID start; ID goal])
    = "Cannot transition from " +:+ ID start +:+ " to " +:+ ID goal
  ∧ NoRulesError start goal ≠ GuardFailedError start' goal' reason
  ∧ NoRulesError start goal ≠ Errorf errTransitionFormat [ID start'; ID goal']
  ∧ GuardFailedError start goal reason
    ≠ Errorf errTransitionFormat [ID start'; ID goal']
  ∧ NoRulesError start goal ≠ ErrInvalidTransition
  ∧ GuardFailedError start goal reason ≠ ErrInvalidTransition
  ∧ (GuardFailedError start goal reason = GuardFailedError start goal reason' →
     reason = reason').
Proof.
  unfold NoRulesError, GuardFailedError, Errorf, ErrInvalidTransition.
  cbn [Error].
  rewrite !Sprintf_no_rules, !Sprintf_guard_failed, !Sprintf_transition.
  repeat apply conj; try reflexivity; try discriminate.
  intros [= Heq].
  repeat (apply String.app_inj in Heq; try injection Heq as Heq).
  exact Heq.
Qed.

(** ** More on the goroutines *)

Lemma sum_list_with_insert {A} (f : A → nat) (l : list A) (i : nat) (x y : A) :
  l !! i = Some x →
  sum_list_with f (<[i := y]> l) + f x = sum_list_with f l + f y.
Proof.
  revert i. induction l as [|a l IH]; intros i Hi; [done|].
  destruct i as [|i]; cbn in Hi.
  - injection Hi as ->.
    change (f y + sum_list_with f l + f x = f x + sum_list_with f l + f y). lia.
  - change (f a + sum_list_with f (<[i:=y]> l) + f x
            = f a + sum_list_with f l + f y).
    specialize (IH i Hi). lia.
Qed.

Lemma step_weight (guards : list Guard) (start goal : State)
    (c c' : Interleaving.Config) :
  Interleaving.step guards start goal c c' →
  weight (length guards) c' < weight (length guards) c.
Proof.
  intros Hstep. unfold weight.
  destruct Hstep as [g rest p | p | k p i c v Hi Hrun | n p i Hi | n p i err Hi | p];
    cbn [Interleaving.caller Interleaving.pool caller_weight].
  - rewrite sum_list_with_app. cbn. lia.
  - lia.
  - pose proof (sum_list_with_insert goroutine_weight p i _ (Interleaving.Sending v) Hi).
    cbn in *. lia.
  - pose proof (sum_list_with_insert goroutine_weight p i _ Interleaving.Exited Hi).
    cbn in *. lia.
  - pose proof (sum_list_with_insert goroutine_weight p i _ Interleaving.Exited Hi).
    cbn in *. lia.
  - lia.
Qed.

(** X15. A permission check on [N] guards is over after at most [4 N + 2]
    steps of the caller and the goroutines together, in any interleaving:
    each guard is called once and sends once, and the caller launches and
    receives at most [N] times; nothing is retried. *)
Theorem Permitted_steps_bounded (guards : list Guard) (start goal : State)
    (n : nat) (c : Interleaving.Config) :
  nsteps (Interleaving.step guards start goal) n (Interleaving.initial guards) c →
  n + weight (length guards) c ≤ 4 * length guards + 2
  ∧ n ≤ 4 * length guards + 2.
Proof.
  intros Hsteps.
  assert (Hgen : ∀ c0, nsteps (Interleaving.step guards start goal) n c0 c →
                       n + weight (length guards) c ≤ weight (length guards) c0).
  { clear Hsteps. intros c0 Hsteps.
    induction Hsteps as [c0|m c0 c1 c2 Hstep _ IH]; [lia|].
    pose proof (step_weight _ _ _ _ _ Hstep). lia. }
  specialize (Hgen _ Hsteps).
  unfold weight at 2 in Hgen. cbn in Hgen. lia.
Qed.

(** X15 at the two steps that launch one guard. *)
Lemma Permitted_steps_bounded_witness :
  nsteps (Interleaving.step [always_pass] (NewState "a") (NewState "b")) 2
    (Interleaving.initial [always_pass])
    {| Interleaving.caller := Interleaving.Receiving 1;
       Interleaving.pool :=
         [Interleaving.Running (go always_pass (NewState "a") (NewState "b"))] |}
  ∧ 2 ≤ 4 * length [always_pass] + 2.
Proof.
  assert (Hrun :
    nsteps (Interleaving.step [always_pass] (NewState "a") (NewState "b")) 2
      (Interleaving.initial [always_pass])
      {| Interleaving.caller := Interleaving.Receiving 1;
         Interleaving.pool :=
           [Interleaving.Running (go always_pass (NewState "a") (NewState "b"))] |}).
  { eapply nsteps_l; [apply Interleaving.step_go|].
    eapply nsteps_l; [apply Interleaving.step_launched|].
    apply nsteps_O. }
  split; [exact Hrun|].
  exact (proj2 (Permitted_steps_bounded [always_pass] (NewState "a") (NewState "b")
                  2 _ Hrun)).
Defined.

Lemma not_all_received (p : list Interleaving.Goroutine) :
  Interleaving.received p < length p →
  ∃ i g, p !! i = Some g ∧ g ≠ Interleaving.Exited.
Proof.
  induction p as [|g p IH]; [cbn; lia|].
  rewrite received_cons. cbn [length]. destruct g as [c|v|]; cbn.
  - intros _. by exists 0, (Interleaving.Running c).
  - intros _. by exists 0, (Interleaving.Sending v).
  - intros Hlt. destruct IH as (i & g & Hi & Hg); [lia|].
    by exists (S i), g.
Qed.

(** X16. While every guard of the entry returns, a permission check cannot
    get stuck: in every configuration it can reach, either the caller is
    back from [Permitted] or the caller or some goroutine can take a step.
    With the bound on the number of steps, every interleaving then brings
    the caller back. *)
Theorem Permitted_no_deadlock (guards : list Guard) (start goal : State)
    (c : Interleaving.Config) :
  (∀ g, g ∈ guards → ∃ v, g start goal = Done v) →
  Interleaving.reachable guards start goal c →
  (∃ v, Interleaving.caller c = Interleaving.Returned v)
  ∨ ∃ c', Interleaving.step guards start goal c c'.
Proof.
  intros Hdone Hc.
  destruct (invariant_reachable _ _ _ _ Hc) as (gs & Hgs & Hcaller).
  destruct c as [k p]. cbn [Interleaving.caller Interleaving.pool] in *.
  destruct k as [[|g rest]|[|n]|v].
  - right. eexists. apply Interleaving.step_launched.
  - right. eexists. apply Interleaving.step_go.
  - right. eexists. apply Interleaving.step_done.
  - right. destruct Hcaller as [-> Hrec].
    destruct (not_all_received p) as (i & gr & Hi & Hgr).
    { rewrite <- (Forall2_length _ _ _ Hgs). lia. }
    destruct (Forall2_lookup_r _ _ _ _ _ Hgs Hi) as (g & Hg & Htr).
    destruct gr as [call|[err|]|]; [| | |done].
    + cbn in Htr. subst call.
      destruct (Hdone g) as [v Hv]; [apply list_elem_of_lookup; eauto|].
      eexists. eapply Interleaving.step_eval; [exact Hi | exact Hv].
    + eexists. by eapply Interleaving.step_recv_err.
    + eexists. by eapply Interleaving.step_recv_nil.
  - left. eauto.
Qed.

(** X16 at the start of a check of one passing guard. *)
Lemma Permitted_no_deadlock_witness :
  (∀ g, g ∈ [always_pass] → ∃ v, g (NewState "a") (NewState "b") = Done v)
  ∧ Interleaving.reachable [always_pass] (NewState "a") (NewState "b")
      (Interleaving.initial [always_pass])
  ∧ ((∃ v, Interleaving.caller (Interleaving.initial [always_pass])
           = Interleaving.Returned v)
     ∨ ∃ c', Interleaving.step [always_pass] (NewState "a") (NewState "b")
               (Interleaving.initial [always_pass]) c').
Proof.
  assert (Hdone : ∀ g, g ∈ [always_pass] →
                       ∃ v, g (NewState "a") (NewState "b") = Done v).
  { intros g Hg. apply list_elem_of_singleton in Hg as ->. by exists None. }
  assert (Hreach : Interleaving.reachable [always_pass] (NewState "a") (NewState "b")
                     (Interleaving.initial [always_pass])) by apply rtc_refl.
  split; [exact Hdone|]. split; [exact Hreach|].
  exact (Permitted_no_deadlock [always_pass] (NewState "a") (NewState "b")
           _ Hdone Hreach).
Defined.

Lemma received_all_exited (p : list Interleaving.Goroutine) :
  Interleaving.received p = length p →
  Forall (λ g, g = Interleaving.Exited) p.
Proof.
  induction p as [|g p IH]; [constructor|].
  rewrite received_cons. cbn [length].
  pose proof (received_le_length p).
  destruct g; cbn; intros Hlen; try lia.
  constructor; [done|]. apply IH. lia.
Qed.

Lemma returned_steps_received (guards : list Guard) (start goal : State)
    (c c' : Interleaving.Config) (v : option error) :
  Interleaving.caller c = Interleaving.Returned v →
  rtc (Interleaving.step guards start goal) c c' →
  Interleaving.received (Interleaving.pool c')
  = Interleaving.received (Interleaving.pool c).
Proof.
  intros Hret Hsteps. induction Hsteps as [c|c1 c2 c3 Hstep _ IH]; [done|].
  destruct (returned_step _ _ _ c1 c2 v Hret Hstep)
    as (Hret2 & j & call & w & Hj & _ & Hp).
  rewrite (IH Hret2), Hp.
  by apply (received_insert_same _ j (Interleaving.Running call)).
Qed.

(** X17. When the caller comes back from the receive loop with nil, every
    goroutine of the check is over: a successful check leaves none behind.
    When it comes back with an error, the goroutines whose result it has
    not received never end afterwards: their number stays what it was at
    the return, since nobody receives from the channel any more. *)
Theorem Permitted_goroutines_left (guards : list Guard) (start goal : State)
    (c : Interleaving.Config) :
  Interleaving.reachable guards start goal c →
  (Interleaving.caller c = Interleaving.Returned None →
   Forall (λ g, g = Interleaving.Exited) (Interleaving.pool c))
  ∧ (∀ v c', Interleaving.caller c = Interleaving.Returned v →
             rtc (Interleaving.step guards start goal) c c' →
             length (Interleaving.pool c') = length guards
             ∧ Interleaving.received (Interleaving.pool c')
               = Interleaving.received (Interleaving.pool c)).
Proof.
  intros Hc. split.
  - intros Hret.
    destruct (invariant_reachable _ _ _ _ Hc) as (gs & Hgs & Hcaller).
    rewrite Hret in Hcaller. destruct Hcaller as [-> Hrec].
    apply received_all_exited. rewrite Hrec. by eapply Forall2_length.
  - intros v c' Hret Hsteps. split.
    + assert (Hc' : Interleaving.reachable guards start goal c')
        by (unfold Interleaving.reachable in *; by etransitivity).
      destruct (returned_steps _ _ _ c c' v Hret Hsteps) as [Hret' _].
      destruct (invariant_reachable _ _ _ _ Hc') as (gs & Hgs & Hcaller).
      rewrite Hret' in Hcaller.
      assert (gs = guards) as -> by (destruct v; by destruct Hcaller).
      symmetry. by eapply Forall2_length.
    + by eapply returned_steps_received.
Qed.

(** X17 at a check of one passing guard that has returned nil. *)
Lemma Permitted_goroutines_left_witness :
  Interleaving.reachable [always_pass] (NewState "a") (NewState "b")
    {| Interleaving.caller := Interleaving.Returned None;
       Interleaving.pool := [Interleaving.Exited] |}
  ∧ Forall (λ g, g = Interleaving.Exited) [Interleaving.Exited].
Proof.
  assert (Hreach :
    Interleaving.reachable [always_pass] (NewState "a") (NewState "b")
      {| Interleaving.caller := Interleaving.Returned None;
         Interleaving.pool := [Interleaving.Exited] |}).
  { unfold Interleaving.reachable, Interleaving.initial.
    eapply rtc_l; [apply Interleaving.step_go|].
    eapply rtc_l; [apply Interleaving.step_launched|].
    eapply rtc_l;
      [apply (Interleaving.step_eval _ _ _ _ _ 0
                (go always_pass (NewState "a") (NewState "b")) None);
       reflexivity|].
    eapply rtc_l; [apply (Interleaving.step_recv_nil _ _ _ _ _ 0); reflexivity|].
    eapply rtc_l; [apply Interleaving.step_done|].
    apply rtc_refl. }
  split; [exact Hreach|].
  exact (proj1 (Permitted_goroutines_left [always_pass] (NewState "a") (NewState "b")
                  _ Hreach) eq_refl).
Defined.
